(** * Keystone: auth-token resolvers, admin-UI file generator, mutation hooks

    A shallow embedding of
    - [packages-next/auth/src/gql/getPasswordResetSchema.ts] (module [Auth]),
    - [packages-next/admin-ui/src/system/generateAdminUI.ts] (module [AdminUI]),
    - the create/update/delete hook pipeline (module [Pipeline]),
    together with the properties the specification states about them. *)

From stdpp Require Import gmap strings list fin_maps.
From Stdlib Require Import ZArith Lia Ascii.

Local Open Scope string_scope.
Local Open Scope list_scope.
Local Open Scope Z_scope.

(** ** Async functions as a state-and-exception monad

    Every resolver is an [async] function over a mutable world (the item
    store, the file system).  [await] sequences effects; a rejected promise
    aborts the rest of the function and keeps the effects performed so far. *)

(** What a rejected promise carries: an error with its message, or the
    typed failure of the validation stage with the messages recorded. *)
Inductive error : Type :=
  | JsError (message : string)
  | ValidationFailureError (messages : list string).

Inductive outcome (A : Type) : Type :=
  | Returned (a : A)
  | Thrown (err : error).
Arguments Returned {A} a.
Arguments Thrown {A} err.

Definition Async (S A : Type) : Type := S → outcome A * S.

Definition async_ret {S A} (a : A) : Async S A := λ st, (Returned a, st).

Definition async_bind {S A B} (c : Async S A) (k : A → Async S B) : Async S B :=
  λ st, match c st with
        | (Returned a, st') => k a st'
        | (Thrown e, st') => (Thrown e, st')
        end.

Definition throw {S A} (e : error) : Async S A := λ st, (Thrown e, st).

Declare Scope async_scope.
Delimit Scope async_scope with async.
Notation "'let*' x ':=' 'await' c 'in' k" := (async_bind c (λ x, k))
  (at level 10, x pattern, c at level 100, k at level 200) : async_scope.
Notation "'do*' 'await' c 'in' k" := (async_bind c (λ _, k))
  (at level 10, c at level 100, k at level 200) : async_scope.
Local Open Scope async_scope.

(** [await Promise.all(l.map(f))]: the calls are started in the order of the
    list; they are taken to complete in that order, and the first rejection
    ends the wait.  What the calls still in flight do after a rejection is
    not followed: the model is exact for a wait that returns. *)
Fixpoint promiseAllMap {S A B} (f : A → Async S B) (l : list A)
  : Async S (list B) :=
  match l with
  | [] => async_ret []
  | x :: l' =>
      let* y := await f x in
      let* ys := await promiseAllMap f l' in
      async_ret (y :: ys)
  end.

Module Auth.

(** *** Data model *)

(** Field values of an item as the resolvers read and write them: [null],
    a string, or a timestamp ([new Date()], in the clock's time unit). *)
Inductive Value : Type :=
  | VNull
  | VString (s : string)
  | VDate (t : Z).

#[global] Instance Value_eq_dec : EqDecision Value.
Proof. solve_decision. Defined.

(** An item is a JS object used as a map from field name to value; the item
    store maps an item id to its fields. *)
Abbreviation Item := (gmap string Value).
Abbreviation Items := (gmap string Item).

(** The codes of [PasswordResetRequestErrorCode] and
    [PasswordResetRedemptionErrorCode], the closed set the three resolvers
    can return. *)
Inductive ErrorCode : Type :=
  | IDENTITY_NOT_FOUND
  | MULTIPLE_IDENTITY_MATCHES
  | FAILURE
  | TOKEN_NOT_SET
  | TOKEN_MISMATCH
  | TOKEN_EXPIRED
  | TOKEN_REDEEMED.

#[global] Instance ErrorCode_eq_dec : EqDecision ErrorCode.
Proof. solve_decision. Defined.

(** The [{ code, message }] object of the GraphQL result types; a resolver
    returns [option ErrorResult], [None] standing for [null]. *)
Record ErrorResult : Type := mkErrorResult { code : ErrorCode; message : string }.

(** Calls made on the collaborators, in program order. *)
Inductive Call : Type :=
  | UpdateOne (id : string) (data : Item)
  | SendToken (itemId identity token : string).

Record World : Type := mkWorld { items : Items; calls : list Call }.

(** Result of [createAuthToken]:
    [{ success: false; code? } | { success: true; itemId; token }]. *)
Inductive CreateResult : Type :=
  | CreateFailure (code : option ErrorCode)
  | CreateSuccess (itemId token : string).

(** Result of [validateAuthToken]:
    [{ success: false; code } | { success: true; item }]. *)
Inductive ValidateResult : Type :=
  | ValidateFailure (code : ErrorCode)
  | ValidateSuccess (id : string) (item : Item).

(** Arguments of [getPasswordResetSchema]; [itemSingular]/[itemPlural] are
    [list.adminUILabels], [tokensValidForMins] is
    [passwordResetLink.tokensValidForMins], in the clock's time unit. *)
Record Config : Type := mkConfig {
  listKey : string;
  identityField : string;
  secretField : string;
  protectIdentities : bool;
  tokensValidForMins : Z;
  itemSingular : string;
  itemPlural : string;
}.

Definition tokenType : string := "passwordReset".
Definition tokenKey : string := tokenType +:+ "Token".
Definition issuedAtKey : string := tokenType +:+ "IssuedAt".
Definition redeemedAtKey : string := tokenType +:+ "RedeemedAt".

(** *** The resolvers of [getPasswordResetSchema] *)

Section Resolvers.

(** [lib/createAuthToken], [lib/validateAuthToken] and [lib/getErrorMessage]
    are imported by the resolvers and are not part of the file; the
    resolvers are embedded over any implementation of them.  Both helpers
    only read the item API (its filtered lookup).  The [list] argument of
    [validateAuthToken] is given by its key, and the clock it consults is
    passed as [now]: a resolver call reads the clock once. *)
Variable createAuthToken :
  string → bool → string → Items → outcome CreateResult.
Variable validateAuthToken :
  string → string → string → string → bool → Z → string → Z → Items →
  outcome ValidateResult.
Variable getAuthTokenErrorMessage : string → string → string → ErrorCode → string.

(** The item API rejects a write whose data does not pass the list's own
    validation ([acceptsData data = false]): [updateOne] then throws. *)
Variable acceptsData : Item → bool.
(** [passwordResetLink.sendToken] is supplied by configuration; it either
    delivers the token or throws. *)
Variable delivers : string → string → string → bool.

Definition errorResult (cfg : Config) (c : ErrorCode) : ErrorResult :=
  {| code := c;
     message := getAuthTokenErrorMessage
                  (identityField cfg) (itemSingular cfg) (itemPlural cfg) c |}.

(** [itemAPI.updateOne({ id, data, query: false })]: the call is recorded,
    then the fields of [data] overwrite those of the stored item. *)
Definition updateOne (id : string) (data : Item) : Async World unit :=
  λ w,
    let w' := {| items := items w; calls := calls w ++ [UpdateOne id data] |} in
    if acceptsData data then
      match items w !! id with
      | Some item =>
          (Returned (), {| items := <[id := data ∪ item]> (items w);
                           calls := calls w' |})
      | None => (Thrown (JsError "updateOne: no such item"), w')
      end
    else (Thrown (JsError "updateOne: validation failure"), w').

Definition sendToken (itemId identity token : string) : Async World unit :=
  λ w,
    let w' := {| items := items w;
                 calls := calls w ++ [SendToken itemId identity token] |} in
    if delivers itemId identity token then (Returned (), w')
    else (Thrown (JsError "sendToken"), w').

(** Awaiting a helper: it reads the items and leaves the world as it is. *)
Definition query {A} (f : Items → outcome A) : Async World A :=
  λ w, (f (items w), w).

(** [Mutation.sendItemPasswordResetLink] (lines 63-100). *)
Definition sendItemPasswordResetLink (cfg : Config) (identity : string) (now : Z)
  : Async World (option ErrorResult) :=
  let* result := await query (createAuthToken (identityField cfg)
                                (protectIdentities cfg) identity) in
  match result with
  | CreateFailure (Some c) => async_ret (Some (errorResult cfg c))
  | CreateFailure None => async_ret None
  | CreateSuccess itemId token =>
      do* await updateOne itemId
            {[ tokenKey := VString token;
               issuedAtKey := VDate now;
               redeemedAtKey := VNull ]} in
      do* await sendToken itemId identity token in
      async_ret None
  end.

(** [Mutation.redeemItemPasswordResetToken] (lines 101-152). *)
Definition redeemItemPasswordResetToken (cfg : Config)
    (identity token secret : string) (now : Z)
  : Async World (option ErrorResult) :=
  let* result := await query (validateAuthToken tokenType (listKey cfg)
                                (identityField cfg) identity (protectIdentities cfg)
                                (tokensValidForMins cfg) token now) in
  match result with
  | ValidateFailure c => async_ret (Some (errorResult cfg c))
  | ValidateSuccess itemId _ =>
      do* await updateOne itemId {[ redeemedAtKey := VDate now ]} in
      do* await updateOne itemId {[ secretField cfg := VString secret ]} in
      async_ret None
  end.

(** [Query.validateItemPasswordResetToken] (lines 155-184). *)
Definition validateItemPasswordResetToken (cfg : Config)
    (identity token : string) (now : Z)
  : Async World (option ErrorResult) :=
  let* result := await query (validateAuthToken tokenType (listKey cfg)
                                (identityField cfg) identity (protectIdentities cfg)
                                (tokensValidForMins cfg) token now) in
  match result with
  | ValidateFailure c => async_ret (Some (errorResult cfg c))
  | ValidateSuccess _ _ => async_ret None
  end.

End Resolvers.

(** *** The helpers, from the specification *)

(** Modelled from the spec: the item API's filtered lookup by field value
    (section 6), which the absent helpers use to find the identity: the
    result set of the items whose identity field holds [identity]. *)
Definition findMatchingIdentity (identityField identity : string) (its : Items)
  : list (string * Item) :=
  map_to_list (filter (λ kv, kv.2 !! identityField = Some (VString identity)) its).

(** Modelled from the spec: [createAuthToken] ([lib/createAuthToken.ts] is
    not among the sources).  Section 4.2, transition [issue]: the identity
    is looked up by the identity field; a token is generated only when
    exactly one record is found; with identity protection no code is
    reported, without it "not found" and "multiple matches" are told apart.
    [fresh] is the token the generator produces for this call. *)
Definition createAuthToken (fresh : string)
    (identityField : string) (protectIdentities : bool) (identity : string)
    (its : Items) : outcome CreateResult :=
  match findMatchingIdentity identityField identity its with
  | [(itemId, _)] => Returned (CreateSuccess itemId fresh)
  | [] => Returned (CreateFailure
            (if protectIdentities then None else Some IDENTITY_NOT_FOUND))
  | _ => Returned (CreateFailure
            (if protectIdentities then None else Some MULTIPLE_IDENTITY_MATCHES))
  end.

(** A field that holds something other than [null]. *)
Definition isSet (v : option Value) : bool :=
  match v with
  | None | Some VNull => false
  | Some _ => true
  end.

(** Modelled from the spec: [validateAuthToken] ([lib/validateAuthToken.ts]
    is not among the sources).  Section 4.2, transition [validate]: identity
    failures as for issuance, collapsed into [FAILURE] under identity
    protection; then, for the one record found, [TOKEN_NOT_SET] if no token
    was ever issued, [TOKEN_REDEEMED] if [RedeemedAt] is non-null,
    [TOKEN_EXPIRED] if [now - IssuedAt >= validityWindow], [TOKEN_MISMATCH]
    if the presented token does not match the stored one, in this order.
    [tokenMatches presented stored] is the token codec's comparison.  The
    specification leaves open a stored token without a timestamp in
    [IssuedAt]; the helper then throws. *)
Definition validateAuthToken (tokenMatches : string → Value → bool)
    (tokenType listKey identityField identity : string)
    (protectIdentities : bool) (validityWindow : Z) (token : string) (now : Z)
    (its : Items) : outcome ValidateResult :=
  match findMatchingIdentity identityField identity its with
  | [(itemId, item)] =>
      if negb (isSet (item !! (tokenType +:+ "Token"))) then
        Returned (ValidateFailure TOKEN_NOT_SET)
      else if isSet (item !! (tokenType +:+ "RedeemedAt")) then
        Returned (ValidateFailure TOKEN_REDEEMED)
      else
        match item !! (tokenType +:+ "IssuedAt") with
        | Some (VDate issuedAt) =>
            if validityWindow <=? now - issuedAt then
              Returned (ValidateFailure TOKEN_EXPIRED)
            else if tokenMatches token (default VNull (item !! (tokenType +:+ "Token"))) then
              Returned (ValidateSuccess itemId item)
            else Returned (ValidateFailure TOKEN_MISMATCH)
        | _ => Thrown (JsError "IssuedAt is not a timestamp")
        end
  | [] => Returned (ValidateFailure
            (if protectIdentities then FAILURE else IDENTITY_NOT_FOUND))
  | _ => Returned (ValidateFailure
            (if protectIdentities then FAILURE else MULTIPLE_IDENTITY_MATCHES))
  end.

(** The plain token codec: the token is stored as issued and compared as a
    string. *)
Definition plainTokenMatches (presented : string) (stored : Value) : bool :=
  bool_decide (stored = VString presented).

(** *** Sequences of calls by a client *)

(** A later call about the same identity: a validate query or a redeem
    mutation, with whatever token, secret and clock reading. *)
Inductive Attempt : Type :=
  | TryValidate (token : string) (now : Z)
  | TryRedeem (token secret : string) (now : Z).

Section Attempts.

Variable tokenMatches : string → Value → bool.
Variable getAuthTokenErrorMessage : string → string → string → ErrorCode → string.
Variable acceptsData : Item → bool.

Definition attempt (cfg : Config) (identity : string) (a : Attempt)
  : Async World (option ErrorResult) :=
  match a with
  | TryValidate token now =>
      validateItemPasswordResetToken (validateAuthToken tokenMatches)
        getAuthTokenErrorMessage cfg identity token now
  | TryRedeem token secret now =>
      redeemItemPasswordResetToken (validateAuthToken tokenMatches)
        getAuthTokenErrorMessage acceptsData cfg identity token secret now
  end.

(** The calls are made one after the other; each one's outcome is kept. *)
Fixpoint attempts (cfg : Config) (identity : string) (l : list Attempt) (w : World)
  : list (outcome (option ErrorResult)) * World :=
  match l with
  | [] => ([], w)
  | a :: l' =>
      let '(r, w1) := attempt cfg identity a w in
      let '(rs, w2) := attempts cfg identity l' w1 in
      (r :: rs, w2)
  end.

End Attempts.

(** "The resolver returns [null] exactly when the operation succeeds", for
    the send-link mutation: [r] is what [createAuthToken] answered, [o] what
    the resolver gave back. *)
Definition nullExactlyOnSuccess (r : outcome CreateResult)
    (o : outcome (option ErrorResult)) : Prop :=
  o = Returned None ↔ ∃ itemId token, r = Returned (CreateSuccess itemId token).

(** *** A sample configuration, to run the resolvers on concrete inputs *)

(** A message table; the three messages are the ones quoted in the comment
    of the redeem resolver. *)
Definition sampleMessage (identityField itemSingular itemPlural : string)
    (c : ErrorCode) : string :=
  match c with
  | FAILURE => "Auth token redemption failed."
  | TOKEN_REDEEMED =>
      "Auth tokens are single use and the auth token provided has already been redeemed."
  | TOKEN_EXPIRED => "The auth token provided has expired."
  | _ => "Auth token error."
  end.

Definition demoConfig (protect : bool) : Config :=
  {| listKey := "User"; identityField := "email"; secretField := "password";
     protectIdentities := protect; tokensValidForMins := 10;
     itemSingular := "User"; itemPlural := "Users" |}.

Definition alice : Item :=
  {[ "email" := VString "a@x.com"; "password" := VString "old" ]}.

(** One user, no token issued yet. *)
Definition demoWorld : World := {| items := {[ "1" := alice ]}; calls := [] |}.

(** The same user with the token ["tok"] issued at time 100. *)
Definition aliceIssued : Item :=
  {[ tokenKey := VString "tok"; issuedAtKey := VDate 100; redeemedAtKey := VNull ]}
  ∪ alice.

Definition issuedWorld : World := {| items := {[ "1" := aliceIssued ]}; calls := [] |}.

(** No user at all. *)
Definition emptyWorld : World := {| items := ∅; calls := [] |}.

End Auth.

Module AdminUI.

(** *** Node's [path] module, POSIX flavour

    [Path.join], [Path.normalize] and [Path.isAbsolute] decide where a file
    is written and which files count as already supplied; they are embedded
    on strings, as the generator uses them. *)

Definition slash : ascii := "/"%char.

(** [s.split('/')] *)
Fixpoint splitPath (s : string) : list string :=
  match s with
  | EmptyString => [EmptyString]
  | String c s' =>
      if Ascii.eqb c slash then EmptyString :: splitPath s'
      else match splitPath s' with
           | seg :: rest => String c seg :: rest
           | [] => [String c EmptyString]
           end
  end.

(** [segments.join('/')] *)
Fixpoint joinPath (segs : list string) : string :=
  match segs with
  | [] => ""
  | [seg] => seg
  | seg :: rest => seg +:+ "/" +:+ joinPath rest
  end.

(** [normalizeString]: the segments are read from left to right onto a
    stack (kept reversed); empty segments and [.] are dropped, [..] pops
    the last segment unless there is none or it is [..] itself, in which
    case it is kept when the path is relative. *)
Fixpoint normalizeSegments (allowAboveRoot : bool) (stack segs : list string)
  : list string :=
  match segs with
  | [] => rev stack
  | seg :: rest =>
      if bool_decide (seg = "" ∨ seg = ".") then
        normalizeSegments allowAboveRoot stack rest
      else if bool_decide (seg = "..") then
        match stack with
        | top :: below =>
            if bool_decide (top = "..") then
              normalizeSegments allowAboveRoot
                (if allowAboveRoot then seg :: stack else stack) rest
            else normalizeSegments allowAboveRoot below rest
        | [] =>
            normalizeSegments allowAboveRoot
              (if allowAboveRoot then [seg] else []) rest
        end
      else normalizeSegments allowAboveRoot (seg :: stack) rest
  end.

Definition isAbsolute (path : string) : bool :=
  match path with
  | String c _ => Ascii.eqb c slash
  | EmptyString => false
  end.

Fixpoint endsWithSlash (path : string) : bool :=
  match path with
  | EmptyString => false
  | String c EmptyString => Ascii.eqb c slash
  | String _ rest => endsWithSlash rest
  end.

(** The normalized segments of a path. *)
Definition segments (path : string) : list string :=
  normalizeSegments (negb (isAbsolute path)) [] (splitPath path).

(** [Path.normalize] *)
Definition normalize (path : string) : string :=
  match path with
  | EmptyString => "."
  | _ =>
      match segments path with
      | [] => if isAbsolute path then "/"
              else if endsWithSlash path then "./" else "."
      | segs =>
          (if isAbsolute path then "/" else "") +:+ joinPath segs
          +:+ (if endsWithSlash path then "/" else "")
      end
  end.

(** [Path.join(...parts)] *)
Definition join (parts : list string) : string :=
  match filter (λ part, part ≠ "") parts with
  | [] => "."
  | parts' => normalize (joinPath parts')
  end.

(** *** Files and the disk *)

(** [AdminFileToWrite]:
    [{ mode: 'write'; src; outputPath } | { mode: 'copy'; inputPath; outputPath }]. *)
Inductive AdminFileToWrite : Type :=
  | WriteFile (src outputPath : string)
  | CopyFile (inputPath outputPath : string).

Definition outputPath (file : AdminFileToWrite) : string :=
  match file with
  | WriteFile _ o | CopyFile _ o => o
  end.

(** File-system operations, in the order they are performed. *)
Inductive FsOp : Type :=
  | Removed (path : string)
  | Written (path content : string)
  | Copied (src dest : string).

(** The disk: the content of every file by path, and the operations done.
    Paths are resolved against a fixed working directory. *)
Record Disk : Type := mkDisk { files : gmap string string; ops : list FsOp }.

Fixpoint isPrefix (l1 l2 : list string) : bool :=
  match l1, l2 with
  | [], _ => true
  | x :: l1', y :: l2' => bool_decide (x = y) && isPrefix l1' l2'
  | _ :: _, [] => false
  end.

(** [path] is [dir] itself or lies below it. *)
Definition inside (dir path : string) : bool :=
  bool_decide (isAbsolute dir = isAbsolute path)
  && isPrefix (segments dir) (segments path).

(** [fs.remove(dir)]: the directory goes with all of its contents. *)
Definition remove (dir : string) : Async Disk unit :=
  λ d, (Returned (),
        {| files := filter (λ kv, inside dir kv.1 = false) (files d);
           ops := ops d ++ [Removed dir] |}).

(** [fs.outputFile(path, content)]: missing directories are created. *)
Definition outputFile (path content : string) : Async Disk unit :=
  λ d, (Returned (),
        {| files := <[path := content]> (files d);
           ops := ops d ++ [Written path content] |}).

(** [fs.ensureDir(dirname(dest))] followed by [fs.copyFile(src, dest)]; the
    copy fails when there is no file at [src].  The disk holds files only:
    the directories that [fs.ensureDir] creates are not recorded. *)
Definition copyFile (src dest : string) : Async Disk unit :=
  λ d, match files d !! src with
       | Some content =>
           (Returned (),
            {| files := <[dest := content]> (files d);
               ops := ops d ++ [Copied src dest] |})
       | None => (Thrown (JsError "ENOENT"), d)
       end.

(** The operation puts a file at [path]. *)
Definition wrote (path : string) (op : FsOp) : Prop :=
  match op with
  | Written dest _ | Copied _ dest => dest = path
  | Removed _ => False
  end.

Definition isWrite (op : FsOp) : Prop :=
  match op with
  | Removed _ => False
  | Written _ _ | Copied _ _ => True
  end.

(** Since the operations [before], the directory [dir] has been removed,
    once, and from then on files have only been written; whatever is in
    [dir] now was written after the removal. *)
Definition cleared (dir : string) (before : list FsOp) (d : Disk) : Prop :=
  ∃ since,
    ops d = before ++ Removed dir :: since
    ∧ Forall isWrite since
    ∧ ∀ path, inside dir path = true →
              is_Some (files d !! path) → Exists (wrote path) since.

Definition keepsCleared (dir : string) (before : list FsOp) {A}
    (c : Async Disk A) : Prop :=
  ∀ d, cleared dir before d → cleared dir before (c d).2.

(** What [resolve.sync] can answer. *)
Inductive Resolution : Type :=
  | Resolved
  | ModuleNotFound
  | ResolveError (err : error).

Section Generator.

(** [prettier.format]; it throws on source text it cannot parse. *)
Variable prettierFormat : string → outcome string.
(** [resolve.sync(path, { extensions })], reading the disk. *)
Variable resolveSync : string → list string → gmap string string → Resolution.
(** [writeAdminFiles(config, graphQLSchema, keystone, configFileExists,
    projectAdminPath)] of [../templates], the framework's file descriptors;
    [config], [graphQLSchema] and [keystone] are fixed. *)
Variable writeAdminFiles : bool → string → list AdminFileToWrite.
(** [config.ui?.getAdditionalFiles?.map(x => x(config)) ?? []], awaited. *)
Variable userPages : list (list AdminFileToWrite).
(** [fastGlob(pattern, { cwd })], reading the disk. *)
Variable fastGlob : string → string → gmap string string → list string.
(** [Path.dirname], [Path.relative] and [serializePathForImport] only shape
    the text of the re-exporting pages. *)
Variable dirname : string → string.
Variable relative : string → string → string.
Variable serializePathForImport : string → string.
(** [process.cwd()] *)
Variable cwd : string.

(** [formatSource(src)] with the default parser. *)
Definition formatSource (src : string) : Async Disk string :=
  λ d, (prettierFormat src, d).

(** [getDoesAdminConfigExist] (lines 16-27). *)
Definition getDoesAdminConfigExist : Async Disk bool :=
  λ d,
    let configPath := join [cwd; "admin"; "config"] in
    match resolveSync configPath [".ts"; ".tsx"; ".js"] (files d) with
    | Resolved => (Returned true, d)
    | ModuleNotFound => (Returned false, d)
    | ResolveError err => (Thrown err, d)
    end.

(** [writeAdminFile] (lines 29-45). *)
Definition writeAdminFile (file : AdminFileToWrite) (projectAdminPath : string)
  : Async Disk string :=
  let outputFilename := join [projectAdminPath; outputPath file] in
  match file with
  | CopyFile inputPath _ =>
      if negb (isAbsolute inputPath) then
        throw (JsError "inputPaths must be absolute")
      else
        do* await copyFile inputPath outputFilename in
        async_ret (normalize outputFilename)
  | WriteFile src _ =>
      let* formatted := await formatSource src in
      do* await outputFile outputFilename formatted in
      async_ret (normalize outputFilename)
  end.

(** The files of [admin/pages] are re-exported from [pages/] (lines 79-90). *)
Definition writeUserPage (projectAdminPath userPagesDir filename : string)
  : Async Disk unit :=
  let outputFilename := join [projectAdminPath; "pages"; filename] in
  let path := relative (dirname outputFilename) (join [userPagesDir; filename]) in
  let importPath := serializePathForImport path in
  outputFile outputFilename ("export { default } from " +:+ importPath).

(** [generateAdminUI] (lines 47-91). *)
Definition generateAdminUI (projectAdminPath : string) : Async Disk unit :=
  do* await remove projectAdminPath in
  let userFilesToWrite := concat userPages in
  let* savedFiles :=
    await promiseAllMap (λ file, writeAdminFile file projectAdminPath)
            userFilesToWrite in
  let uniqueFiles : gset string := list_to_set savedFiles in
  let* configFileExists := await getDoesAdminConfigExist in
  let adminFiles := writeAdminFiles configFileExists projectAdminPath in
  do* await promiseAllMap (λ file, writeAdminFile file projectAdminPath)
        (filter (λ x, normalize (outputPath x) ∉ uniqueFiles) adminFiles) in
  let userPagesDir := join [cwd; "admin"; "pages"] in
  let* found := await (λ d, (Returned (fastGlob "**/*.{js,jsx,ts,tsx}" userPagesDir
                                         (files d)), d)) in
  do* await promiseAllMap (writeUserPage projectAdminPath userPagesDir) found in
  async_ret ().

End Generator.

(** *** A sample project *)

(** The user supplies [pages/index.js]; so does the framework. *)
Definition userIndex : AdminFileToWrite := WriteFile "USER" "pages/index.js".
Definition frameworkIndex : AdminFileToWrite := WriteFile "FRAMEWORK" "pages/index.js".

Definition sampleGenerate (projectAdminPath : string) : Async Disk unit :=
  generateAdminUI (λ src, Returned src) (λ _ _ _, ModuleNotFound)
    (λ _ _, [frameworkIndex]) [[userIndex]] (λ _ _ _, [])
    (λ path, path) (λ _ to, to) (λ path, path) "/app" projectAdminPath.

(** A target directory left over from an earlier build, next to the
    project's own file. *)
Definition staleDisk : Disk :=
  {| files := {[ "/app/.keystone/admin/pages/old.js" := "OLD";
                 "/app/keystone.ts" := "CONFIG" ]};
     ops := [] |}.

End AdminUI.

Module Pipeline.

(** *** Data model (specification, section 3)

    The list implementation behind [create], [update] and [delete] is not
    among the sources.  The module follows the specification, sections 3
    and 4.1, and [docs-next/pages/apis/hooks.mdx]. *)

Inductive FieldValue : Type :=
  | Null
  | Text (s : string)
  | Int (n : Z)
  | Ids (ids : list N).

(** Resolved data, and stored items: field name to value. *)
Abbreviation Data := (gmap string FieldValue).

Inductive OperationKind : Type := CreateOp | UpdateOp | DeleteOp.

(** The lifecycle stages a hook can be bound to. *)
Inductive Stage : Type :=
  | ResolveInput
  | ValidateInput
  | BeforeChange
  | AfterChange
  | ValidateDelete
  | BeforeDelete
  | AfterDelete.

(** What the pipeline does, in order: a hook invocation (of the list when
    [fieldPath] is [None]) or a write to storage. *)
Inductive Event : Type :=
  | Invoked (stage : Stage) (fieldPath : option string)
  | Persisted (kind : OperationKind) (id : N).

Record Backend : Type := mkBackend {
  stored : gmap N Data;
  nextId : N;
  events : list Event;
}.

(** The arguments every hook receives. *)
Record HookArgs : Type := mkHookArgs {
  operation : OperationKind;
  originalInput : Data;
  existingItem : option Data;
  resolvedData : Data;
  updatedItem : option Data;
}.

(** A hook descriptor: the callbacks bound to a list ([R] is the resolved
    data) or to a field ([R] is the field's value, if any).  A validation
    hook answers with the messages it passed to [addValidationError] or
    [addFieldValidationError]; the other hooks apart from [resolveInput] are
    run for their side effect.  Any hook may throw. *)
Record Hooks (R : Type) : Type := mkHooks {
  resolveInput : option (HookArgs → outcome R);
  validateInput : option (HookArgs → outcome (list string));
  beforeChange : option (HookArgs → outcome unit);
  afterChange : option (HookArgs → outcome unit);
  validateDelete : option (HookArgs → outcome (list string));
  beforeDelete : option (HookArgs → outcome unit);
  afterDelete : option (HookArgs → outcome unit);
}.
Arguments resolveInput {R}.
Arguments validateInput {R}.
Arguments beforeChange {R}.
Arguments afterChange {R}.
Arguments validateDelete {R}.
Arguments beforeDelete {R}.
Arguments afterDelete {R}.

(** A configured default: a static value or a function of the original
    input. *)
Inductive DefaultValue : Type :=
  | Static (v : FieldValue)
  | Computed (f : Data → FieldValue).

(** A field of a list.  [resolveRelationship], for a relationship field,
    resolves the [connect]/[create]/[disconnect]/[disconnectAll] input
    against the stored links; its nested [create]s are runs of the pipeline
    for the related list, with their own hooks and writes, which is why it
    is a computation on the backend.  [coerce] is the field type's
    conversion to the stored form. *)
Record FieldConfig : Type := mkFieldConfig {
  defaultValue : option DefaultValue;
  resolveRelationship : option (FieldValue → option Data → Async Backend FieldValue);
  coerce : FieldValue → FieldValue;
  fieldHooks : Hooks (option FieldValue);
}.

Record ListConfig : Type := mkListConfig {
  fields : list (string * FieldConfig);
  listHooks : Hooks Data;
  canDelete : Data → bool;
}.

(** A mutation on one item. *)
Inductive Mutation : Type :=
  | Create (data : Data)
  | Update (id : N) (data : Data)
  | Delete (id : N).

(** *** Stages (specification, section 4.1) *)

(** Invoking a hook, if one is configured: the invocation is recorded and
    the hook's answer, or its exception, is the result. *)
Definition invoke {R} (stage : Stage) (fieldPath : option string)
    (hook : option (HookArgs → outcome R)) (args : HookArgs) (otherwise : R)
  : Async Backend R :=
  match hook with
  | Some h =>
      λ w, (h args, {| stored := stored w; nextId := nextId w;
                       events := events w ++ [Invoked stage fieldPath] |})
  | None => async_ret otherwise
  end.

(** A field-level stage: the field hooks of one stage are independent tasks
    on the same arguments; the stage completes when all have finished or
    one has failed.  They are taken in the order of the field list. *)
Definition forFields {R} (cfg : ListConfig)
    (task : string → FieldConfig → Async Backend R) : Async Backend (list (string * R)) :=
  promiseAllMap (λ '(name, fc), let* r := await task name fc in async_ret (name, r))
    (fields cfg).

(** Stage 1, create only: a field left undefined receives its default. *)
Definition applyDefaults (cfg : ListConfig) (input : Data) : Data :=
  foldl (λ rd '(name, fc),
           match rd !! name, defaultValue fc with
           | None, Some (Static v) => <[name := v]> rd
           | None, Some (Computed f) => <[name := f input]> rd
           | _, _ => rd
           end) input (fields cfg).

(** Stage 2: relationship inputs become identifiers. *)
Definition resolveRelationships (cfg : ListConfig) (existing : option Data)
    (rd : Data) : Async Backend Data :=
  let* resolved :=
    await forFields cfg (λ name fc,
            match resolveRelationship fc, rd !! name with
            | Some resolve, Some v =>
                let* v' := await resolve v existing in async_ret (Some v')
            | _, _ => async_ret None
            end) in
  async_ret (foldl (λ rd' '(name, r),
                      match r with Some v' => <[name := v']> rd' | None => rd' end)
               rd resolved).

(** Stage 3: field-value coercion. *)
Definition coerceFields (cfg : ListConfig) (rd : Data) : Data :=
  foldl (λ rd' '(name, fc),
           match rd !! name with
           | Some v => <[name := coerce fc v]> rd'
           | None => rd'
           end) rd (fields cfg).

(** Stage 4: field-level [resolveInput], once per field; each hook gives
    the new value of its own field, and the values are merged. *)
Definition fieldResolveInput (cfg : ListConfig) (args : HookArgs) : Async Backend Data :=
  let* resolved :=
    await forFields cfg (λ name fc,
            invoke ResolveInput (Some name) (resolveInput (fieldHooks fc)) args
              (resolvedData args !! name)) in
  async_ret (foldl (λ rd' '(name, r),
                      match r with
                      | Some v => <[name := v]> rd'
                      | None => delete name rd'
                      end) (resolvedData args) resolved).

(** Stage 5: list-level [resolveInput]; what it returns is final. *)
Definition listResolveInput (cfg : ListConfig) (args : HookArgs) : Async Backend Data :=
  invoke ResolveInput None (resolveInput (listHooks cfg)) args (resolvedData args).

Definition withResolved (args : HookArgs) (rd : Data) : HookArgs :=
  {| operation := operation args; originalInput := originalInput args;
     existingItem := existingItem args; resolvedData := rd;
     updatedItem := updatedItem args |}.

(** Modelled from the spec: the data-resolution stages of [create] and
    [update] (section 4.1, stages 1 to 5), in order. *)
Definition resolveData (cfg : ListConfig) (args : HookArgs) : Async Backend Data :=
  let rd1 := match operation args with
             | CreateOp => applyDefaults cfg (originalInput args)
             | _ => originalInput args
             end in
  let* rd2 := await resolveRelationships cfg (existingItem args) rd1 in
  let rd3 := coerceFields cfg rd2 in
  let* rd4 := await fieldResolveInput cfg (withResolved args rd3) in
  listResolveInput cfg (withResolved args rd4).

(** Modelled from the spec: the validation stage (section 4.1).  Every
    field-level hook runs, then the list-level hook; the messages recorded
    accumulate. *)
Definition validation (cfg : ListConfig) (stage : Stage)
    (pick : ∀ R, Hooks R → option (HookArgs → outcome (list string)))
    (args : HookArgs) : Async Backend (list string) :=
  let* perField :=
    await forFields cfg (λ name fc,
            invoke stage (Some name) (pick _ (fieldHooks fc)) args []) in
  let* perList := await invoke stage None (pick _ (listHooks cfg)) args [] in
  async_ret (concat (snd <$> perField) ++ perList).

(** Modelled from the spec: the side-effect hooks of one stage (section
    4.1), field level, then list level. *)
Definition sideEffects (cfg : ListConfig) (stage : Stage)
    (pick : ∀ R, Hooks R → option (HookArgs → outcome unit))
    (args : HookArgs) : Async Backend unit :=
  do* await forFields cfg (λ name fc,
              invoke stage (Some name) (pick _ (fieldHooks fc)) args ()) in
  invoke stage None (pick _ (listHooks cfg)) args ().

(** Persistence. *)
Definition persistCreate (rd : Data) : Async Backend (N * Data) :=
  λ w, (Returned (nextId w, rd),
        {| stored := <[nextId w := rd]> (stored w);
           nextId := N.succ (nextId w);
           events := events w ++ [Persisted CreateOp (nextId w)] |}).

Definition persistUpdate (id : N) (existing rd : Data) : Async Backend (N * Data) :=
  λ w, (Returned (id, rd ∪ existing),
        {| stored := <[id := rd ∪ existing]> (stored w);
           nextId := nextId w;
           events := events w ++ [Persisted UpdateOp id] |}).

Definition persistDelete (id : N) (existing : Data) : Async Backend (N * Data) :=
  λ w, (Returned (id, existing),
        {| stored := delete id (stored w);
           nextId := nextId w;
           events := events w ++ [Persisted DeleteOp id] |}).

(** The stored item a mutation is about. *)
Definition findItem (id : N) : Async Backend Data :=
  λ w, match stored w !! id with
       | Some item => (Returned item, w)
       | None => (Thrown (JsError "no such item"), w)
       end.

(** Modelled from the spec: what precedes validation (section 4.1), for
    [create] and [update] the data-resolution stages, for [delete] access
    control.  The answer is the arguments the later hooks receive. *)
Definition prepare (cfg : ListConfig) (m : Mutation) : Async Backend HookArgs :=
  match m with
  | Create data =>
      let args := {| operation := CreateOp; originalInput := data;
                     existingItem := None; resolvedData := data;
                     updatedItem := None |} in
      let* rd := await resolveData cfg args in
      async_ret (withResolved args rd)
  | Update id data =>
      let* existing := await findItem id in
      let args := {| operation := UpdateOp; originalInput := data;
                     existingItem := Some existing; resolvedData := data;
                     updatedItem := None |} in
      let* rd := await resolveData cfg args in
      async_ret (withResolved args rd)
  | Delete id =>
      let* existing := await findItem id in
      if canDelete cfg existing then
        async_ret {| operation := DeleteOp; originalInput := ∅;
                     existingItem := Some existing; resolvedData := ∅;
                     updatedItem := None |}
      else throw (JsError "access denied")
  end.

(** The validation stage of a mutation. *)
Definition validate (cfg : ListConfig) (m : Mutation) (args : HookArgs)
  : Async Backend (list string) :=
  match m with
  | Create _ | Update _ _ => validation cfg ValidateInput (@validateInput) args
  | Delete _ => validation cfg ValidateDelete (@validateDelete) args
  end.

(** Modelled from the spec: what follows a clean validation (section 4.1),
    the before-hooks, the write to storage, the after-hooks. *)
Definition commit (cfg : ListConfig) (m : Mutation) (args : HookArgs)
  : Async Backend (N * Data) :=
  let withUpdated (item : Data) :=
    {| operation := operation args; originalInput := originalInput args;
       existingItem := existingItem args; resolvedData := resolvedData args;
       updatedItem := Some item |} in
  match m with
  | Create _ =>
      do* await sideEffects cfg BeforeChange (@beforeChange) args in
      let* saved := await persistCreate (resolvedData args) in
      do* await sideEffects cfg AfterChange (@afterChange) (withUpdated saved.2) in
      async_ret saved
  | Update id _ =>
      do* await sideEffects cfg BeforeChange (@beforeChange) args in
      let* saved := await persistUpdate id (default ∅ (existingItem args))
                            (resolvedData args) in
      do* await sideEffects cfg AfterChange (@afterChange) (withUpdated saved.2) in
      async_ret saved
  | Delete id =>
      do* await sideEffects cfg BeforeDelete (@beforeDelete) args in
      let* gone := await persistDelete id (default ∅ (existingItem args)) in
      do* await sideEffects cfg AfterDelete (@afterDelete) args in
      async_ret gone
  end.

(** Modelled from the spec: the create/update/delete pipeline of a list
    (the list implementation is not among the sources; the specification,
    section 4.1, and [docs-next/pages/apis/hooks.mdx] describe it).  The
    stages are strictly sequential; when the validation stage has recorded
    one or more messages the mutation fails as a whole with a
    [ValidationFailureError] carrying all of them. *)
Definition runMutation (cfg : ListConfig) (m : Mutation) : Async Backend (N * Data) :=
  let* args := await prepare cfg m in
  let* messages := await validate cfg m args in
  match messages with
  | [] => commit cfg m args
  | _ => throw (ValidationFailureError messages)
  end.

(** Modelled from the spec: the validation hooks of a mutation (section
    4.1 and section 7), [validateInput] for [create] and [update],
    [validateDelete] for [delete]; those of the fields in the order of the
    field list, then that of the list. *)
Definition validationHook {R} (m : Mutation) (hooks : Hooks R)
  : option (HookArgs → outcome (list string)) :=
  match m with
  | Create _ | Update _ _ => validateInput hooks
  | Delete _ => validateDelete hooks
  end.

Definition validationHooks (cfg : ListConfig) (m : Mutation)
  : list (HookArgs → outcome (list string)) :=
  omap (λ '(_, fc), validationHook m (fieldHooks fc)) (fields cfg)
  ++ option_list (validationHook m (listHooks cfg)).

(** The messages a validation hook records on the arguments it is given. *)
Definition messagesOf (hook : HookArgs → outcome (list string)) (args : HookArgs)
  : list string :=
  match hook args with
  | Returned messages => messages
  | Thrown _ => []
  end.

(** All the messages the validation hooks of a mutation record. *)
Definition recordedMessages (cfg : ListConfig) (m : Mutation) (args : HookArgs)
  : list string :=
  concat ((λ hook, messagesOf hook args) <$> validationHooks cfg m).

(** The events of a validation stage, and those of the stages up to and
    including validation. *)
Definition isValidation (e : Event) : Prop :=
  match e with
  | Invoked ValidateInput _ | Invoked ValidateDelete _ => True
  | _ => False
  end.

Definition isResolveOrValidation (e : Event) : Prop :=
  match e with
  | Invoked ResolveInput _ | Invoked ValidateInput _ | Invoked ValidateDelete _ => True
  | _ => False
  end.

(** No relationship field of the list performs a nested operation: its
    resolution leaves the backend as it is. *)
Definition noNestedOperations (cfg : ListConfig) : Prop :=
  ∀ name fc resolve v existing w,
    (name, fc) ∈ fields cfg → resolveRelationship fc = Some resolve →
    (resolve v existing w).2 = w.

(** The computation leaves storage alone and only adds events in [P]. *)
Definition onlyEvents {A} (P : Event → Prop) (c : Async Backend A) : Prop :=
  ∀ w, stored (c w).2 = stored w ∧ nextId (c w).2 = nextId w
       ∧ ∃ evs, events (c w).2 = events w ++ evs ∧ Forall P evs.

(** *** A sample list: a required field *)

(** [text({ isRequired: true })]: the field's validation reports a missing
    value. *)
Definition requiredField (name : string) : FieldConfig :=
  {| defaultValue := None; resolveRelationship := None; coerce := λ v, v;
     fieldHooks :=
       {| resolveInput := None;
          validateInput := Some (λ args,
            match operation args, resolvedData args !! name with
            | _, Some Null | CreateOp, None =>
                Returned ["Required field " +:+ name +:+ " is null or undefined."]
            | _, _ => Returned []
            end);
          beforeChange := Some (λ _, Returned ());
          afterChange := Some (λ _, Returned ());
          validateDelete := None; beforeDelete := None; afterDelete := None |} |}.

Definition plainField : FieldConfig :=
  {| defaultValue := None; resolveRelationship := None; coerce := λ v, v;
     fieldHooks := mkHooks _ None None None None None None None |}.

(** The list of [tests/api-tests/fields/required.test.ts], with a list-level
    [validateDelete] that refuses every deletion. *)
Definition testList : ListConfig :=
  {| fields := [("name", plainField); ("testField", requiredField "testField")];
     listHooks :=
       {| resolveInput := None; validateInput := None;
          beforeChange := Some (λ _, Returned ());
          afterChange := Some (λ _, Returned ());
          validateDelete := Some (λ _, Returned ["Items of Test cannot be deleted."]);
          beforeDelete := Some (λ _, Returned ());
          afterDelete := Some (λ _, Returned ()) |};
     canDelete := λ _, true |}.

(** A field whose [validateInput] hook throws, and a list with a required
    field next to it. *)
Definition brokenField : FieldConfig :=
  {| defaultValue := None; resolveRelationship := None; coerce := λ v, v;
     fieldHooks :=
       {| resolveInput := None;
          validateInput := Some (λ _, Thrown (JsError "validateInput hook failed"));
          beforeChange := None; afterChange := None;
          validateDelete := None; beforeDelete := None; afterDelete := None |} |}.

Definition brokenList : ListConfig :=
  {| fields := [("testField", requiredField "testField"); ("broken", brokenField)];
     listHooks := mkHooks _ None None None None None None None;
     canDelete := λ _, true |}.

Definition emptyBackend : Backend := {| stored := ∅; nextId := 1; events := [] |}.

Definition oneItemBackend : Backend :=
  {| stored := {[ 1%N := {[ "name" := Text "test entry";
                           "testField" := Text "x" ]} ]};
     nextId := 2; events := [] |}.

End Pipeline.

(** * Properties *)

Import Auth.

(** ** The item store *)

Lemma findMatchingIdentity_single (f v : string) (its : Items) id item :
  findMatchingIdentity f v its = [(id, item)] →
  filter (λ kv : string * Item, kv.2 !! f = Some (VString v)) its = {[ id := item ]}.
Proof.
  unfold findMatchingIdentity. intros H.
  rewrite <- (list_to_map_to_list (filter _ its)), H. simpl.
  by rewrite insert_empty.
Qed.

Lemma findMatchingIdentity_stored (f v : string) (its : Items) id item :
  findMatchingIdentity f v its = [(id, item)] →
  its !! id = Some item ∧ item !! f = Some (VString v).
Proof.
  intros H%findMatchingIdentity_single.
  assert (Hl : filter (λ kv : string * Item, kv.2 !! f = Some (VString v)) its !! id
               = Some item) by (rewrite H; apply lookup_singleton_eq).
  apply map_lookup_filter_Some in Hl. naive_solver.
Qed.

(** Rewriting the one matching item, its identity field kept, leaves it the
    one match. *)
Lemma findMatchingIdentity_update (f v : string) (its : Items) id item item' :
  findMatchingIdentity f v its = [(id, item)] →
  item' !! f = Some (VString v) →
  findMatchingIdentity f v (<[id := item']> its) = [(id, item')].
Proof.
  intros H%findMatchingIdentity_single Hid. unfold findMatchingIdentity.
  rewrite map_filter_insert_True by done.
  rewrite H, insert_singleton_eq. apply map_to_list_singleton.
Qed.

(** The three token fields are different fields. *)
Lemma token_keys_distinct :
  tokenKey ≠ issuedAtKey ∧ tokenKey ≠ redeemedAtKey ∧ issuedAtKey ≠ redeemedAtKey.
Proof. repeat split; discriminate. Qed.

Section AuthProperties.

Variable getAuthTokenErrorMessage : string → string → string → ErrorCode → string.
Variable acceptsData : Item → bool.
Variable delivers : string → string → string → bool.

Lemma updateOne_accepted id data item (w : World) :
  acceptsData data = true →
  items w !! id = Some item →
  updateOne acceptsData id data w
  = (Returned (), {| items := <[id := data ∪ item]> (items w);
                     calls := calls w ++ [UpdateOne id data] |}).
Proof. intros Ha Hi. unfold updateOne. by rewrite Ha, Hi. Qed.

Lemma updateOne_returned id data (w w' : World) :
  updateOne acceptsData id data w = (Returned (), w') →
  ∃ item, acceptsData data = true ∧ items w !! id = Some item ∧
          w' = {| items := <[id := data ∪ item]> (items w);
                  calls := calls w ++ [UpdateOne id data] |}.
Proof.
  unfold updateOne. destruct (acceptsData data); [|done].
  destruct (items w !! id) as [item|]; [|done].
  intros [= <-]. by exists item.
Qed.

Lemma updateOne_rejected id data (w : World) :
  acceptsData data = false →
  ∃ e, updateOne acceptsData id data w
       = (Thrown e, {| items := items w; calls := calls w ++ [UpdateOne id data] |}).
Proof. intros Ha. unfold updateOne. rewrite Ha. eauto. Qed.

Section AnyValidateAuthToken.

Variable validateAuthToken :
  string → string → string → string → bool → Z → string → Z → Items →
  outcome ValidateResult.

Local Abbreviation redeem :=
  (redeemItemPasswordResetToken validateAuthToken getAuthTokenErrorMessage acceptsData).
Local Abbreviation validate :=
  (validateItemPasswordResetToken validateAuthToken getAuthTokenErrorMessage).
Local Abbreviation validation cfg identity token now w :=
  (validateAuthToken tokenType (listKey cfg) (identityField cfg) identity
     (protectIdentities cfg) (tokensValidForMins cfg) token now (items w)).
Local Abbreviation err := (errorResult getAuthTokenErrorMessage).

Lemma validate_run cfg identity token now (w : World) r :
  validation cfg identity token now w = Returned r →
  validate cfg identity token now w
  = (Returned match r with
              | ValidateFailure c => Some (err cfg c)
              | ValidateSuccess _ _ => None
              end, w).
Proof.
  intros Hv. unfold validateItemPasswordResetToken, async_bind, query.
  rewrite Hv. by destruct r.
Qed.

Lemma redeem_failed cfg identity token secret now (w : World) c :
  validation cfg identity token now w = Returned (ValidateFailure c) →
  redeem cfg identity token secret now w = (Returned (Some (err cfg c)), w).
Proof.
  intros Hv. unfold redeemItemPasswordResetToken, async_bind, query.
  by rewrite Hv.
Qed.

(** What a redeem call that returned [null] has done. *)
Lemma redeem_returned_null cfg identity token secret now (w w' : World) :
  redeem cfg identity token secret now w = (Returned None, w') →
  ∃ itemId item stored,
    validation cfg identity token now w = Returned (ValidateSuccess itemId item)
    ∧ items w !! itemId = Some stored
    ∧ acceptsData {[ redeemedAtKey := VDate now ]} = true
    ∧ acceptsData {[ secretField cfg := VString secret ]} = true
    ∧ calls w' = calls w ++
        [UpdateOne itemId {[ redeemedAtKey := VDate now ]};
         UpdateOne itemId {[ secretField cfg := VString secret ]}]
    ∧ items w' = <[itemId := {[ secretField cfg := VString secret ]} ∪
                             ({[ redeemedAtKey := VDate now ]} ∪ stored)]> (items w).
Proof.
  unfold redeemItemPasswordResetToken, async_bind, query.
  destruct (validation cfg identity token now w) as [[c|itemId item]|e] eqn:Hv;
    [done| |done].
  destruct (updateOne acceptsData itemId {[redeemedAtKey := VDate now]} w)
    as [[[]|e1] w1] eqn:H1; [|done].
  destruct (updateOne acceptsData itemId {[secretField cfg := VString secret]} w1)
    as [[[]|e2] w2] eqn:H2; [|done].
  intros [= <-].
  apply updateOne_returned in H1 as (stored & Ha1 & Hs & ->).
  apply updateOne_returned in H2 as (stored' & Ha2 & Hs' & ->).
  simpl in *. rewrite lookup_insert_eq in Hs'. injection Hs' as <-.
  exists itemId, item, stored. repeat split; [done..| |].
  - by rewrite <- app_assoc.
  - by rewrite insert_insert_eq.
Qed.

(** A redeem call whose validation succeeded returns [null] or throws. *)
Lemma redeem_validated cfg identity token secret now (w : World) itemId item :
  validation cfg identity token now w = Returned (ValidateSuccess itemId item) →
  ∀ e, (redeem cfg identity token secret now w).1 ≠ Returned (Some e).
Proof.
  intros Hv e. unfold redeemItemPasswordResetToken, async_bind, query. rewrite Hv.
  destruct (updateOne acceptsData itemId {[redeemedAtKey := VDate now]} w)
    as [[[]|e1] w1]; [|done].
  by destruct (updateOne acceptsData itemId {[secretField cfg := VString secret]} w1)
    as [[[]|e2] w2].
Qed.

Lemma redeem_accepted cfg identity token secret now (w : World) itemId item stored :
  validation cfg identity token now w = Returned (ValidateSuccess itemId item) →
  items w !! itemId = Some stored →
  acceptsData {[ redeemedAtKey := VDate now ]} = true →
  acceptsData {[ secretField cfg := VString secret ]} = true →
  (redeem cfg identity token secret now w).1 = Returned None.
Proof.
  intros Hv Hs Ha1 Ha2.
  unfold redeemItemPasswordResetToken, async_bind, query. rewrite Hv.
  rewrite (updateOne_accepted _ _ stored) by done.
  rewrite (updateOne_accepted _ _ ({[redeemedAtKey := VDate now]} ∪ stored));
    [done..|]. simpl. apply lookup_insert_eq.
Qed.

(** C10. Whenever token validation does not succeed, the redeem mutation and
    the validate query leave the world as it was: no [updateOne] call is
    made and no item is changed; and when validation fails with a code, both
    return that code with its message. *)
Theorem failed_validation_writes_nothing cfg identity token secret now (w : World) :
  (∀ itemId item,
     validation cfg identity token now w ≠ Returned (ValidateSuccess itemId item)) →
  (redeem cfg identity token secret now w).2 = w
  ∧ (validate cfg identity token now w).2 = w
  ∧ ∀ c, validation cfg identity token now w = Returned (ValidateFailure c) →
         (redeem cfg identity token secret now w).1 = Returned (Some (err cfg c))
         ∧ (validate cfg identity token now w).1 = Returned (Some (err cfg c)).
Proof.
  intros Hv. split; [|split].
  - unfold redeemItemPasswordResetToken, async_bind, query.
    destruct (validation cfg identity token now w) as [[c|itemId item]|e]; try done.
    by destruct (Hv itemId item).
  - unfold validateItemPasswordResetToken, async_bind, query.
    by destruct (validation cfg identity token now w) as [[c|itemId item]|e].
  - intros c Hc. split.
    + by rewrite (redeem_failed _ _ _ _ _ _ _ Hc).
    + by rewrite (validate_run _ _ _ _ _ _ Hc).
Qed.

(** C2. A redeem call that succeeds has made exactly two [updateOne] calls,
    in this order: one that sets [RedeemedAt] to the current time, then one
    that sets the secret field to the new secret.  And when the first write
    is accepted but the second is rejected, the call throws with the token
    already marked as redeemed in the store. *)
Theorem redeem_two_writes cfg identity token secret now (w : World) :
  (∀ w', redeem cfg identity token secret now w = (Returned None, w') →
     ∃ itemId item stored,
       validation cfg identity token now w = Returned (ValidateSuccess itemId item)
       ∧ items w !! itemId = Some stored
       ∧ calls w' = calls w ++
           [UpdateOne itemId {[ redeemedAtKey := VDate now ]};
            UpdateOne itemId {[ secretField cfg := VString secret ]}]
       ∧ items w' = <[itemId := {[ secretField cfg := VString secret ]} ∪
                                ({[ redeemedAtKey := VDate now ]} ∪ stored)]> (items w))
  ∧ (∀ itemId item stored,
       validation cfg identity token now w = Returned (ValidateSuccess itemId item) →
       items w !! itemId = Some stored →
       acceptsData {[ redeemedAtKey := VDate now ]} = true →
       acceptsData {[ secretField cfg := VString secret ]} = false →
       ∃ e w' item',
         redeem cfg identity token secret now w = (Thrown e, w')
         ∧ items w' !! itemId = Some item'
         ∧ item' !! redeemedAtKey = Some (VDate now)
         ∧ calls w' = calls w ++
             [UpdateOne itemId {[ redeemedAtKey := VDate now ]};
              UpdateOne itemId {[ secretField cfg := VString secret ]}]).
Proof.
  split.
  - intros w' Hr.
    apply redeem_returned_null in Hr
      as (itemId & item & stored & Hv & Hs & _ & _ & Hc & Hi).
    by exists itemId, item, stored.
  - intros itemId item stored Hv Hs Ha1 Ha2.
    unfold redeemItemPasswordResetToken, async_bind, query. rewrite Hv.
    rewrite (updateOne_accepted _ _ stored) by done.
    destruct (updateOne_rejected itemId {[secretField cfg := VString secret]}
                {| items := <[itemId := {[redeemedAtKey := VDate now]} ∪ stored]> (items w);
                   calls := calls w ++ [UpdateOne itemId {[redeemedAtKey := VDate now]}] |}
                Ha2) as [e He].
    rewrite He. eexists _, _, _. split; [reflexivity|]. simpl.
    split; [apply lookup_insert_eq|].
    split; [|by rewrite <- app_assoc].
    apply lookup_union_Some_l, lookup_singleton_eq.
Qed.

End AnyValidateAuthToken.

Section AnyCreateAuthToken.

Variable createAuthToken :
  string → bool → string → Items → outcome CreateResult.

Local Abbreviation sendLink :=
  (sendItemPasswordResetLink createAuthToken getAuthTokenErrorMessage acceptsData delivers).

(** C5. After a successful send-link call, whatever token state the record
    had before, the stored record holds the newly generated token in
    [Token], the current time in [IssuedAt] and [null] in [RedeemedAt]; its
    other fields are as they were. *)
Theorem issue_overwrites_token_state cfg identity now (w w' : World) itemId token :
  createAuthToken (identityField cfg) (protectIdentities cfg) identity (items w)
    = Returned (CreateSuccess itemId token) →
  sendLink cfg identity now w = (Returned None, w') →
  ∃ stored item',
    items w !! itemId = Some stored
    ∧ items w' !! itemId = Some item'
    ∧ item' !! tokenKey = Some (VString token)
    ∧ item' !! issuedAtKey = Some (VDate now)
    ∧ item' !! redeemedAtKey = Some VNull
    ∧ ∀ k, k ∉ [tokenKey; issuedAtKey; redeemedAtKey] → item' !! k = stored !! k.
Proof.
  intros Hc. unfold sendItemPasswordResetLink, async_bind, query. rewrite Hc.
  match goal with |- context [updateOne _ _ ?d _] => set (data := d) end.
  destruct (updateOne acceptsData itemId data w) as [[[]|e1] w1] eqn:H1; [|done].
  apply updateOne_returned in H1 as (stored & _ & Hs & ->).
  unfold sendToken. simpl. destruct (delivers itemId identity token); [|done].
  intros [= <-]. simpl.
  destruct token_keys_distinct as (Hti & Htr & Hir).
  exists stored, (data ∪ stored). rewrite lookup_insert_eq.
  repeat split; try done.
  - apply lookup_union_Some_l. apply lookup_insert_eq.
  - apply lookup_union_Some_l. subst data.
    rewrite lookup_insert_ne by done. apply lookup_insert_eq.
  - apply lookup_union_Some_l. subst data.
    rewrite !lookup_insert_ne by done. apply lookup_singleton_eq.
  - intros k Hk. apply lookup_union_r. subst data.
    rewrite !lookup_insert_ne, lookup_singleton_ne; [done|..];
      intros <-; apply Hk; set_solver.
Qed.

End AnyCreateAuthToken.
(** ** The resolvers over the helpers of the specification *)

Section ValidateAuthTokenFacts.

Variable tokenMatches : string → Value → bool.

Local Abbreviation validation cfg identity token now w :=
  (validateAuthToken tokenMatches tokenType (listKey cfg) (identityField cfg) identity
     (protectIdentities cfg) (tokensValidForMins cfg) token now (items w)).
Local Abbreviation redeem :=
  (redeemItemPasswordResetToken (validateAuthToken tokenMatches)
     getAuthTokenErrorMessage acceptsData).
Local Abbreviation validate :=
  (validateItemPasswordResetToken (validateAuthToken tokenMatches)
     getAuthTokenErrorMessage).
Local Abbreviation err := (errorResult getAuthTokenErrorMessage).

(** Validation succeeds only on the one record found, with a token set. *)
Lemma validateAuthToken_success cfg identity token now (w : World) itemId item :
  validation cfg identity token now w = Returned (ValidateSuccess itemId item) →
  findMatchingIdentity (identityField cfg) identity (items w) = [(itemId, item)]
  ∧ isSet (item !! tokenKey) = true.
Proof.
  unfold validateAuthToken.
  destruct (findMatchingIdentity _ _ _) as [|[id it] [|? ?]]; [done| |done].
  fold tokenKey redeemedAtKey issuedAtKey.
  destruct (isSet (it !! tokenKey)) eqn:Ht; [|done]. simpl.
  destruct (isSet (it !! redeemedAtKey)); [done|].
  destruct (it !! issuedAtKey) as [[| |t]|]; try done.
  destruct (_ <=? _); [done|].
  destruct (tokenMatches _ _); [|done].
  by intros [= -> ->].
Qed.

(** A record whose token is set and whose [RedeemedAt] is non-null fails
    validation with [TOKEN_REDEEMED], whatever is presented and whenever. *)
Lemma validateAuthToken_redeemed cfg identity token now (w : World) itemId item :
  findMatchingIdentity (identityField cfg) identity (items w) = [(itemId, item)] →
  isSet (item !! tokenKey) = true →
  isSet (item !! redeemedAtKey) = true →
  validation cfg identity token now w = Returned (ValidateFailure TOKEN_REDEEMED).
Proof.
  intros Hf Ht Hr. unfold validateAuthToken. rewrite Hf.
  fold tokenKey redeemedAtKey. by rewrite Ht, Hr.
Qed.


Local Abbreviation later :=
  (attempts tokenMatches getAuthTokenErrorMessage acceptsData).

(** Once the record is in the redeemed state, a run of validate and redeem
    calls answers [TOKEN_REDEEMED] throughout and changes nothing. *)
Lemma attempts_on_redeemed cfg identity (w : World) itemId item :
  findMatchingIdentity (identityField cfg) identity (items w) = [(itemId, item)] →
  isSet (item !! tokenKey) = true →
  isSet (item !! redeemedAtKey) = true →
  ∀ l, later cfg identity l w
       = (replicate (length l) (Returned (Some (err cfg TOKEN_REDEEMED))), w).
Proof.
  intros Hf Ht Hr l. induction l as [|a l IH]; [done|].
  destruct a as [token now|token secret now]; simpl.
  - rewrite (validate_run _ _ _ _ _ _ (ValidateFailure TOKEN_REDEEMED))
      by by eapply validateAuthToken_redeemed.
    by rewrite IH.
  - rewrite (redeem_failed _ _ _ _ _ _ _ TOKEN_REDEEMED)
      by by eapply validateAuthToken_redeemed.
    by rewrite IH.
Qed.


End ValidateAuthTokenFacts.

Section CreateAuthTokenFacts.

Local Abbreviation sendLink fresh :=
  (sendItemPasswordResetLink (createAuthToken fresh) getAuthTokenErrorMessage
     acceptsData delivers).

(** Under identity protection [createAuthToken] never reports a code. *)
Lemma createAuthToken_protected fresh f identity (its : Items) :
  ∃ r, createAuthToken fresh f true identity its = Returned r
       ∧ ∀ c, r ≠ CreateFailure (Some c).
Proof.
  unfold createAuthToken.
  destruct (findMatchingIdentity f identity its) as [|[id it] [|? ?]];
    eexists; (split; [reflexivity|done]).
Qed.

(** C3, as the code has it.  With identity protection enabled the send-link
    mutation never returns a code and message: whenever two runs both return,
    on whatever stores, they return the same value, [null].  Without a record
    of the identity the call always returns [null] and leaves the world as it
    was.  With one record of the identity it returns [null] exactly when the
    token write is accepted and the token is delivered; when either fails the
    call throws.  So the outcome is the same for an identity that exists and
    one that does not only as long as storing and sending succeed. *)
Theorem send_link_hides_identity_existence cfg identity :
  protectIdentities cfg = true →
  (∀ fresh now (w : World) e,
     (sendLink fresh cfg identity now w).1 ≠ Returned (Some e))
  ∧ (∀ fresh1 fresh2 now1 now2 (w1 w2 : World) v1 v2,
       (sendLink fresh1 cfg identity now1 w1).1 = Returned v1 →
       (sendLink fresh2 cfg identity now2 w2).1 = Returned v2 →
       v1 = None ∧ v2 = None)
  ∧ (∀ fresh now (w : World),
       findMatchingIdentity (identityField cfg) identity (items w) = [] →
       sendLink fresh cfg identity now w = (Returned None, w))
  ∧ (∀ fresh now (w : World) itemId item,
       findMatchingIdentity (identityField cfg) identity (items w) = [(itemId, item)] →
       ((sendLink fresh cfg identity now w).1 = Returned None
        ↔ acceptsData {[ tokenKey := VString fresh; issuedAtKey := VDate now;
                         redeemedAtKey := VNull ]} = true
          ∧ delivers itemId identity fresh = true)
       ∧ (acceptsData {[ tokenKey := VString fresh; issuedAtKey := VDate now;
                         redeemedAtKey := VNull ]} = false
          ∨ delivers itemId identity fresh = false →
          ∃ err, (sendLink fresh cfg identity now w).1 = Thrown err)).
Proof.
  intros Hp.
  assert (Hnone : ∀ fresh now (w : World) e,
            (sendLink fresh cfg identity now w).1 ≠ Returned (Some e)).
  { intros fresh now w e.
    unfold sendItemPasswordResetLink, async_bind, query. rewrite Hp.
    destruct (createAuthToken_protected fresh (identityField cfg) identity (items w))
      as (r & -> & Hr).
    destruct r as [[c|]|itemId token]; [by destruct (Hr c)|done|].
    destruct (updateOne _ _ _ _) as [[[]|?] w']; [|done].
    by destruct (sendToken _ _ _ _ _) as [[[]|?] w'']. }
  split; [exact Hnone|]. split; [|split].
  - intros fresh1 fresh2 now1 now2 w1 w2 v1 v2 H1 H2.
    split.
    + destruct v1 as [e|]; [|done]. by destruct (Hnone fresh1 now1 w1 e).
    + destruct v2 as [e|]; [|done]. by destruct (Hnone fresh2 now2 w2 e).
  - intros fresh now w H.
    unfold sendItemPasswordResetLink, async_bind, query, createAuthToken.
    by rewrite H, Hp.
  - intros fresh now w itemId item H.
    destruct (findMatchingIdentity_stored _ _ _ _ _ H) as [Hs _].
    unfold sendItemPasswordResetLink, async_bind, query, createAuthToken.
    rewrite H.
    destruct (acceptsData _) eqn:Ha.
    + rewrite (updateOne_accepted _ _ item) by done.
      unfold sendToken. destruct (delivers itemId identity fresh) eqn:Hd; simpl.
      * split; [done|]. intros Hf. by destruct Hf.
      * split; [split; [done|by intros [_ ?]]|eauto].
    + destruct (updateOne_rejected itemId _ w Ha) as [e ->]. simpl.
      split; [split; [done|by intros [? _]]|eauto].
Qed.

End CreateAuthTokenFacts.

Section AnyHelpers.

Variable createAuthToken :
  string → bool → string → Items → outcome CreateResult.
Variable validateAuthToken :
  string → string → string → string → bool → Z → string → Z → Items →
  outcome ValidateResult.

Local Abbreviation sendLink :=
  (sendItemPasswordResetLink createAuthToken getAuthTokenErrorMessage acceptsData delivers).
Local Abbreviation redeem :=
  (redeemItemPasswordResetToken validateAuthToken getAuthTokenErrorMessage acceptsData).
Local Abbreviation validate :=
  (validateItemPasswordResetToken validateAuthToken getAuthTokenErrorMessage).
Local Abbreviation validation cfg identity token now w :=
  (validateAuthToken tokenType (listKey cfg) (identityField cfg) identity
     (protectIdentities cfg) (tokensValidForMins cfg) token now (items w)).
Local Abbreviation err := (errorResult getAuthTokenErrorMessage).

(** C4, as the code has it.  The validate query returns [null] exactly when
    token validation succeeds, the redeem mutation exactly when validation
    succeeds and both writes are accepted; each returns a code and message
    exactly when token validation fails.  The send-link mutation returns a
    code and message exactly when [createAuthToken] fails with a code; it
    returns [null] when the token was created, stored and sent, and also
    when [createAuthToken] fails without a code.  None of these failures is
    thrown. *)
Theorem null_or_error_result cfg identity token secret now (w : World) :
  (∀ r, createAuthToken (identityField cfg) (protectIdentities cfg) identity (items w)
        = Returned r →
     (∀ e, (sendLink cfg identity now w).1 = Returned (Some e)
           ↔ ∃ c, r = CreateFailure (Some c) ∧ e = err cfg c)
     ∧ (r = CreateFailure None → sendLink cfg identity now w = (Returned None, w))
     ∧ ((sendLink cfg identity now w).1 = Returned None
        ↔ r = CreateFailure None
          ∨ ∃ itemId tok stored,
              r = CreateSuccess itemId tok ∧ items w !! itemId = Some stored
              ∧ acceptsData {[ tokenKey := VString tok; issuedAtKey := VDate now;
                               redeemedAtKey := VNull ]} = true
              ∧ delivers itemId identity tok = true))
  ∧ (∀ r, validation cfg identity token now w = Returned r →
     ((validate cfg identity token now w).1 = Returned None
      ↔ ∃ itemId item, r = ValidateSuccess itemId item)
     ∧ (∀ e, (validate cfg identity token now w).1 = Returned (Some e)
             ↔ ∃ c, r = ValidateFailure c ∧ e = err cfg c)
     ∧ ((redeem cfg identity token secret now w).1 = Returned None
        ↔ ∃ itemId item stored,
            r = ValidateSuccess itemId item ∧ items w !! itemId = Some stored
            ∧ acceptsData {[ redeemedAtKey := VDate now ]} = true
            ∧ acceptsData {[ secretField cfg := VString secret ]} = true)
     ∧ (∀ e, (redeem cfg identity token secret now w).1 = Returned (Some e)
             ↔ ∃ c, r = ValidateFailure c ∧ e = err cfg c)).
Proof.
  split.
  - intros r Hc.
    unfold sendItemPasswordResetLink, async_bind, query. rewrite Hc.
    destruct r as [[c|]|itemId tok].
    + repeat split; try done.
      * intros [= <-]. by exists c.
      * by intros (c' & [= <-] & ->).
      * intros [[=]|(? & ? & ? & [=] & _)].
    + repeat split; try done.
      * by intros (c' & [=] & _).
      * by left.
    + repeat split; try done.
      * destruct (updateOne _ _ _ _) as [[[]|?] w']; [|done].
        by destruct (sendToken _ _ _ _ _) as [[[]|?] w''].
      * by intros (c' & [=] & _).
      * intros Hr. right.
        destruct (updateOne _ _ _ _) as [[[]|?] w'] eqn:Hu; [|done].
        apply updateOne_returned in Hu as (stored & Ha & Hs & ->).
        unfold sendToken in Hr.
        destruct (delivers itemId identity tok) eqn:Hd; [|done].
        by exists itemId, tok, stored.
      * intros [[=]|(? & ? & stored & [= <- <-] & Hs & Ha & Hd)].
        rewrite (updateOne_accepted _ _ stored) by done.
        unfold sendToken. by rewrite Hd.
  - intros r Hv. rewrite (validate_run _ _ _ _ _ _ _ Hv). simpl.
    split; [|split; [|split]].
    + destruct r as [c|itemId item]; split; try done.
      * by intros (? & ? & [=]).
      * by exists itemId, item.
    + intros e. destruct r as [c|itemId item]; split; try done.
      * intros [= <-]. by exists c.
      * by intros (c' & [= <-] & ->).
      * by intros (c' & [=] & _).
    + split.
      * intros Hr. destruct (redeem cfg identity token secret now w) as [o w'] eqn:E.
        simpl in Hr. subst o.
        apply redeem_returned_null in E
          as (itemId & item & stored & Hv' & Hs & Ha1 & Ha2 & _).
        rewrite Hv in Hv'. injection Hv' as ->. by exists itemId, item, stored.
      * intros (itemId & item & stored & -> & Hs & Ha1 & Ha2).
        by eapply redeem_accepted.
    + intros e. destruct r as [c|itemId item].
      * rewrite (redeem_failed _ _ _ _ _ _ _ _ Hv). simpl. split.
        -- intros [= <-]. by exists c.
        -- by intros (c' & [= <-] & ->).
      * split.
        -- intros Hr. by destruct (redeem_validated _ _ _ _ secret _ _ _ _ Hv e).
        -- by intros (c' & [=] & _).
Qed.

End AnyHelpers.

End AuthProperties.

Lemma failed_validation_writes_nothing_witness :
  (redeemItemPasswordResetToken (validateAuthToken plainTokenMatches) sampleMessage
     (λ _, true) (demoConfig false) "a@x.com" "wrong" "hunter2" 105 issuedWorld).2
  = issuedWorld
  ∧ (validateItemPasswordResetToken (validateAuthToken plainTokenMatches) sampleMessage
       (demoConfig false) "a@x.com" "wrong" 105 issuedWorld).2 = issuedWorld
  ∧ (redeemItemPasswordResetToken (validateAuthToken plainTokenMatches) sampleMessage
       (λ _, true) (demoConfig false) "a@x.com" "wrong" "hunter2" 105 issuedWorld).1
    = Returned (Some (errorResult sampleMessage (demoConfig false) TOKEN_MISMATCH)).
Proof.
  destruct (failed_validation_writes_nothing sampleMessage (λ _, true)
              (validateAuthToken plainTokenMatches) (demoConfig false)
              "a@x.com" "wrong" "hunter2" 105 issuedWorld) as (Hr & Hv & Hc).
  - intros itemId item. vm_compute. discriminate.
  - split; [exact Hr|]. split; [exact Hv|].
    apply (Hc TOKEN_MISMATCH). vm_compute. reflexivity.
Defined.

Lemma redeem_two_writes_witness :
  (∃ w' itemId item stored,
     redeemItemPasswordResetToken (validateAuthToken plainTokenMatches)
       sampleMessage (λ _, true) (demoConfig false)
       "a@x.com" "tok" "hunter2" 105 issuedWorld = (Returned None, w')
     ∧ validateAuthToken plainTokenMatches tokenType "User" "email" "a@x.com" false 10
         "tok" 105 (items issuedWorld) = Returned (ValidateSuccess itemId item)
     ∧ items issuedWorld !! itemId = Some stored
     ∧ calls w' = calls issuedWorld ++
         [UpdateOne itemId {[ redeemedAtKey := VDate 105 ]};
          UpdateOne itemId {[ "password" := VString "hunter2" ]}])
  ∧ (∃ e w' item',
       redeemItemPasswordResetToken (validateAuthToken plainTokenMatches)
         sampleMessage (λ d, bool_decide (d !! "password" = None)) (demoConfig false)
         "a@x.com" "tok" "hunter2" 105 issuedWorld = (Thrown e, w')
       ∧ items w' !! "1" = Some item'
       ∧ item' !! redeemedAtKey = Some (VDate 105)).
Proof.
  split.
  - destruct (redeem_two_writes sampleMessage (λ _, true)
                (validateAuthToken plainTokenMatches) (demoConfig false)
                "a@x.com" "tok" "hunter2" 105 issuedWorld) as [H _].
    set (r := redeemItemPasswordResetToken (validateAuthToken plainTokenMatches)
                sampleMessage (λ _, true) (demoConfig false)
                "a@x.com" "tok" "hunter2" 105 issuedWorld) in *.
    assert (Hr : r = (Returned None, r.2)) by (vm_compute; reflexivity).
    destruct (H r.2 Hr) as (itemId & item & stored & Hv & Hs & Hc & _).
    exists r.2, itemId, item, stored. repeat split; assumption.
  - destruct (redeem_two_writes sampleMessage (λ d, bool_decide (d !! "password" = None))
                (validateAuthToken plainTokenMatches) (demoConfig false)
                "a@x.com" "tok" "hunter2" 105 issuedWorld) as [_ H].
    edestruct H as (e & w' & item' & Hr & Hi & Hra & _).
    + vm_compute. reflexivity.
    + vm_compute. reflexivity.
    + vm_compute. reflexivity.
    + vm_compute. reflexivity.
    + exists e, w', item'. repeat split; assumption.
Defined.

Lemma issue_overwrites_token_state_witness :
  ∃ stored item',
    items issuedWorld !! "1" = Some stored
    ∧ items (sendItemPasswordResetLink (createAuthToken "new") sampleMessage
               (λ _, true) (λ _ _ _, true) (demoConfig false) "a@x.com" 200
               issuedWorld).2 !! "1" = Some item'
    ∧ item' !! tokenKey = Some (VString "new")
    ∧ item' !! issuedAtKey = Some (VDate 200)
    ∧ item' !! redeemedAtKey = Some VNull
    ∧ ∀ k, k ∉ [tokenKey; issuedAtKey; redeemedAtKey] → item' !! k = stored !! k.
Proof.
  eapply (issue_overwrites_token_state sampleMessage (λ _, true) (λ _ _ _, true)
            (createAuthToken "new") (demoConfig false) "a@x.com" 200 issuedWorld).
  - vm_compute. reflexivity.
  - vm_compute. reflexivity.
Defined.




Lemma send_link_hides_identity_existence_witness :
  sendItemPasswordResetLink (createAuthToken "t1") sampleMessage (λ _, true)
    (λ _ _ _, true) (demoConfig true) "a@x.com" 100 emptyWorld
  = (Returned None, emptyWorld)
  ∧ ((sendItemPasswordResetLink (createAuthToken "t2") sampleMessage (λ _, true)
        (λ _ _ _, true) (demoConfig true) "a@x.com" 101 demoWorld).1 = Returned None
     ↔ true = true ∧ true = true).
Proof.
  split.
  - apply (proj1 (proj2 (proj2 (send_link_hides_identity_existence sampleMessage
                    (λ _, true) (λ _ _ _, true) (demoConfig true) "a@x.com" eq_refl)))
             "t1" 100 emptyWorld).
    vm_compute; reflexivity.
  - apply (proj2 (proj2 (proj2 (send_link_hides_identity_existence sampleMessage
                    (λ _, true) (λ _ _ _, true) (demoConfig true) "a@x.com" eq_refl)))
             "t2" 101 demoWorld "1" alice).
    vm_compute; reflexivity.
Defined.

(** C3, as stated, fails: with identity protection enabled and a [sendToken]
    that does not deliver, the call returns [null] on a store without the
    identity and throws on a store that has it, the other inputs equal. *)
Lemma send_link_outcome_reveals_identity :
  (sendItemPasswordResetLink (createAuthToken "t1") sampleMessage (λ _, true)
     (λ _ _ _, false) (demoConfig true) "a@x.com" 100 emptyWorld).1 = Returned None
  ∧ (sendItemPasswordResetLink (createAuthToken "t1") sampleMessage (λ _, true)
       (λ _ _ _, false) (demoConfig true) "a@x.com" 100 demoWorld).1
    = Thrown (JsError "sendToken")
  ∧ (sendItemPasswordResetLink (createAuthToken "t1") sampleMessage (λ _, true)
       (λ _ _ _, false) (demoConfig true) "a@x.com" 100 demoWorld).1
    ≠ (sendItemPasswordResetLink (createAuthToken "t1") sampleMessage (λ _, true)
         (λ _ _ _, false) (demoConfig true) "a@x.com" 100 emptyWorld).1.
Proof. vm_compute. repeat split; discriminate. Qed.

(** C4, as stated, fails: under identity protection the send-link mutation
    returns [null] for an identity that no record has, although
    [createAuthToken] did not succeed. *)
Lemma null_returned_without_success :
  ¬ nullExactlyOnSuccess
      (createAuthToken "tok" "email" true "nobody@x.com" (items demoWorld))
      (sendItemPasswordResetLink (createAuthToken "tok") sampleMessage (λ _, true)
         (λ _ _ _, true) (demoConfig true) "nobody@x.com" 100 demoWorld).1.
Proof.
  intros [H _]. destruct H as (itemId & token & E).
  - vm_compute. reflexivity.
  - vm_compute in E. discriminate.
Qed.

Lemma null_or_error_result_witness :
  sendItemPasswordResetLink (createAuthToken "tok") sampleMessage (λ _, true)
    (λ _ _ _, true) (demoConfig true) "nobody@x.com" 100 demoWorld
  = (Returned None, demoWorld)
  ∧ ∀ e, (redeemItemPasswordResetToken (validateAuthToken plainTokenMatches)
            sampleMessage (λ _, true) (demoConfig true)
            "a@x.com" "wrong" "hunter2" 105 issuedWorld).1 = Returned (Some e)
         ↔ ∃ c, ValidateFailure TOKEN_MISMATCH = ValidateFailure c
                ∧ e = errorResult sampleMessage (demoConfig true) c.
Proof.
  split.
  - destruct (null_or_error_result sampleMessage (λ _, true) (λ _ _ _, true)
                (createAuthToken "tok") (validateAuthToken plainTokenMatches)
                (demoConfig true) "nobody@x.com" "wrong" "hunter2" 100 demoWorld)
      as [H _].
    destruct (H (CreateFailure None)) as (_ & Hnull & _).
    + vm_compute. reflexivity.
    + apply Hnull. reflexivity.
  - destruct (null_or_error_result sampleMessage (λ _, true) (λ _ _ _, true)
                (createAuthToken "tok") (validateAuthToken plainTokenMatches)
                (demoConfig true) "a@x.com" "wrong" "hunter2" 105 issuedWorld)
      as [_ H].
    destruct (H (ValidateFailure TOKEN_MISMATCH)) as (_ & _ & _ & Herr).
    + vm_compute. reflexivity.
    + exact Herr.
Defined.

(** ** The admin-UI file generator *)

Import AdminUI.

(** [Path.normalize] and [Path.join] on the paths Node's documentation
    uses. *)
Example normalize_doc : normalize "/foo/bar//baz/asdf/quux/.." = "/foo/bar/baz/asdf".
Proof. reflexivity. Qed.

Example join_doc : join ["/foo"; "bar"; "baz/asdf"; "quux"; ".."] = "/foo/bar/baz/asdf".
Proof. reflexivity. Qed.

Example normalize_edge_cases :
  normalize "" = "." ∧ normalize "./" = "./" ∧ normalize "/.." = "/"
  ∧ normalize "a/../.." = ".." ∧ normalize "/a//b/../c/./d/" = "/a/c/d/".
Proof. repeat split; reflexivity. Qed.

Example join_edge_cases :
  join [""; ""] = "." ∧ join ["."; "pages/x.js"] = "pages/x.js"
  ∧ join ["/app/.keystone/admin"; "pages/index.js"]
    = "/app/.keystone/admin/pages/index.js".
Proof. repeat split; reflexivity. Qed.

Section TargetDirectory.

Variable projectAdminPath : string.
Variable before : list FsOp.

Local Abbreviation cleared := (cleared projectAdminPath before).
Local Abbreviation keepsCleared := (keepsCleared projectAdminPath before).

Lemma keepsCleared_ret {A} (a : A) : keepsCleared (async_ret a).
Proof. by intros d. Qed.

Lemma keepsCleared_throw {A} e : keepsCleared (throw (A := A) e).
Proof. by intros d. Qed.

Lemma keepsCleared_read {A} (f : Disk → outcome A) : keepsCleared (λ d, (f d, d)).
Proof. by intros d. Qed.

Lemma keepsCleared_bind {A B} (c : Async Disk A) (k : A → Async Disk B) :
  keepsCleared c → (∀ a, keepsCleared (k a)) → keepsCleared (async_bind c k).
Proof.
  intros Hc Hk d Hd. unfold async_bind. specialize (Hc d Hd).
  destruct (c d) as [[a|e] d1]; [by apply Hk|done].
Qed.

Lemma keepsCleared_promiseAllMap {A B} (f : A → Async Disk B) l :
  (∀ x, keepsCleared (f x)) → keepsCleared (promiseAllMap f l).
Proof.
  intros Hf. induction l as [|x l IH]; simpl.
  - apply keepsCleared_ret.
  - apply keepsCleared_bind; [apply Hf|]. intros y.
    apply keepsCleared_bind; [apply IH|]. intros ys. apply keepsCleared_ret.
Qed.

(** One more file put at [dest]. *)
Lemma cleared_put (d : Disk) dest content op :
  wrote dest op → cleared d →
  cleared {| files := <[dest := content]> (files d); ops := ops d ++ [op] |}.
Proof.
  intros Hop (since & Hops & Hw & Hin). exists (since ++ [op]). simpl.
  split; [by rewrite Hops, <- app_assoc|].
  split.
  - apply Forall_app. split; [done|]. apply Forall_singleton. by destruct op.
  - intros path Hp Hsome. apply Exists_app.
    destruct (decide (dest = path)) as [<-|Hne].
    + right. by apply Exists_cons_hd.
    + left. rewrite lookup_insert_ne in Hsome by done. by apply Hin.
Qed.

Lemma keepsCleared_outputFile path content : keepsCleared (outputFile path content).
Proof. intros d Hd. by apply cleared_put. Qed.

Lemma keepsCleared_copyFile src dest : keepsCleared (copyFile src dest).
Proof.
  intros d Hd. unfold copyFile.
  destruct (files d !! src) as [content|]; [|done]. by apply cleared_put.
Qed.

(** Removing the target directory establishes [cleared]. *)
Lemma remove_cleared (d : Disk) :
  ops d = before → cleared (remove projectAdminPath d).2.
Proof.
  intros Hb. exists []. simpl. rewrite Hb. split; [done|]. split; [done|].
  intros path Hp [content Hc].
  apply map_lookup_filter_Some in Hc as [_ Hout]. simpl in Hout. congruence.
Qed.

Lemma keepsCleared_writeAdminFile prettierFormat file dir :
  keepsCleared (writeAdminFile prettierFormat file dir).
Proof.
  destruct file as [src out|inp out]; simpl.
  - apply keepsCleared_bind; [apply keepsCleared_read|]. intros formatted.
    apply keepsCleared_bind; [apply keepsCleared_outputFile|]. intros _.
    apply keepsCleared_ret.
  - destruct (negb (isAbsolute inp)); [apply keepsCleared_throw|].
    apply keepsCleared_bind; [apply keepsCleared_copyFile|]. intros _.
    apply keepsCleared_ret.
Qed.

Lemma keepsCleared_getDoesAdminConfigExist resolveSync cwd :
  keepsCleared (getDoesAdminConfigExist resolveSync cwd).
Proof.
  intros d Hd. unfold getDoesAdminConfigExist.
  by destruct (resolveSync _ _ _).
Qed.

Lemma keepsCleared_writeUserPage dirname relative serializePathForImport
    dir userPagesDir filename :
  keepsCleared (writeUserPage dirname relative serializePathForImport
                  dir userPagesDir filename).
Proof. apply keepsCleared_outputFile. Qed.

End TargetDirectory.

(** A call that starts by removing the target directory and keeps it
    cleared from then on. *)
Lemma cleared_bind_remove {A} dir (k : unit → Async Disk A) (d : Disk) :
  keepsCleared dir (ops d) (k ()) →
  cleared dir (ops d) (async_bind (remove dir) k d).2.
Proof.
  intros Hk. unfold async_bind. simpl. apply Hk.
  by apply (remove_cleared dir (ops d) d).
Qed.

Section Generator.

Variable prettierFormat : string → outcome string.
Variable resolveSync : string → list string → gmap string string → Resolution.
Variable writeAdminFiles : bool → string → list AdminFileToWrite.
Variable userPages : list (list AdminFileToWrite).
Variable fastGlob : string → string → gmap string string → list string.
Variable dirname : string → string.
Variable relative : string → string → string.
Variable serializePathForImport : string → string.
Variable cwd : string.

Local Abbreviation generate :=
  (generateAdminUI prettierFormat resolveSync writeAdminFiles userPages fastGlob
     dirname relative serializePathForImport cwd).

(** C9. Every call of [generateAdminUI] first removes the target directory
    with all of its contents, and only writes files afterwards: a file that
    is in the target directory when the call ends, whether it returned or
    threw, was written by the call after the removal. *)
Theorem generateAdminUI_clears_target projectAdminPath (d : Disk) :
  ∃ since,
    ops (generate projectAdminPath d).2 = ops d ++ Removed projectAdminPath :: since
    ∧ Forall isWrite since
    ∧ ∀ path, inside projectAdminPath path = true →
              is_Some (files (generate projectAdminPath d).2 !! path) →
              Exists (wrote path) since.
Proof.
  change (cleared projectAdminPath (ops d) (generate projectAdminPath d).2).
  unfold generateAdminUI. apply cleared_bind_remove.
  apply keepsCleared_bind.
  { apply keepsCleared_promiseAllMap. intros file.
    apply keepsCleared_writeAdminFile. }
  intros savedFiles. apply keepsCleared_bind.
  { apply keepsCleared_getDoesAdminConfigExist. }
  intros configFileExists. apply keepsCleared_bind.
  { apply keepsCleared_promiseAllMap. intros file.
    apply keepsCleared_writeAdminFile. }
  intros _. apply keepsCleared_bind.
  { apply (keepsCleared_read _ _ (λ d, Returned _)). }
  intros found. apply keepsCleared_bind.
  { apply keepsCleared_promiseAllMap. intros filename.
    apply keepsCleared_writeUserPage. }
  intros _. apply keepsCleared_ret.
Qed.

End Generator.

(** C8, on the sample project: the user has supplied [pages/index.js], the
    framework has a file for the same output path, and the target directory
    is [/app/.keystone/admin].  The framework's file is not skipped: the
    path saved for the user's file is the joined one, the path looked up for
    the framework's file is the bare output path.  Both files are written to
    the same place and the user's is overwritten. *)
Theorem generateAdminUI_overwrites_user_file :
  outputPath frameworkIndex = outputPath userIndex
  ∧ normalize (outputPath frameworkIndex) = "pages/index.js"
  ∧ normalize (join ["/app/.keystone/admin"; outputPath userIndex])
    = "/app/.keystone/admin/pages/index.js"
  ∧ ∃ d', sampleGenerate "/app/.keystone/admin" staleDisk = (Returned (), d')
      ∧ ops d' = [Removed "/app/.keystone/admin";
                  Written "/app/.keystone/admin/pages/index.js" "USER";
                  Written "/app/.keystone/admin/pages/index.js" "FRAMEWORK"]
      ∧ files d' !! "/app/.keystone/admin/pages/index.js" = Some "FRAMEWORK".
Proof.
  repeat split; [vm_compute; reflexivity..|].
  eexists. split; [vm_compute; reflexivity|]. split; vm_compute; reflexivity.
Qed.

Lemma generateAdminUI_clears_target_witness :
  files (sampleGenerate "/app/.keystone/admin" staleDisk).2
    !! "/app/.keystone/admin/pages/old.js" = None
  ∧ ∃ since,
      ops (sampleGenerate "/app/.keystone/admin" staleDisk).2
      = ops staleDisk ++ Removed "/app/.keystone/admin" :: since
      ∧ Forall isWrite since
      ∧ Exists (wrote "/app/.keystone/admin/pages/index.js") since.
Proof.
  split; [vm_compute; reflexivity|].
  destruct (generateAdminUI_clears_target (λ src, Returned src)
              (λ _ _ _, ModuleNotFound) (λ _ _, [frameworkIndex]) [[userIndex]]
              (λ _ _ _, []) (λ path, path) (λ _ to, to) (λ path, path) "/app"
              "/app/.keystone/admin" staleDisk) as (since & Hops & Hw & Hin).
  exists since. split; [exact Hops|]. split; [exact Hw|].
  apply Hin; [vm_compute; reflexivity|].
  exists "FRAMEWORK". vm_compute. reflexivity.
Defined.

(** ** The mutation pipeline *)

Import Pipeline.

Section Stages.

Lemma onlyEvents_ret {A} P (a : A) : onlyEvents P (async_ret a).
Proof. intros w. repeat split. exists []. by rewrite app_nil_r. Qed.

Lemma onlyEvents_throw {A} P e : onlyEvents P (throw (A := A) e).
Proof. intros w. repeat split. exists []. by rewrite app_nil_r. Qed.

Lemma onlyEvents_bind {A B} P (c : Async Backend A) (k : A → Async Backend B) :
  onlyEvents P c → (∀ a, onlyEvents P (k a)) → onlyEvents P (async_bind c k).
Proof.
  intros Hc Hk w. unfold async_bind.
  destruct (Hc w) as (Hi & Hn & evs & He & HP).
  destruct (c w) as [[a|e] w1]; simpl in *.
  - destruct (Hk a w1) as (Hi' & Hn' & evs' & He' & HP').
    rewrite Hi', Hn', He', Hi, Hn, He. repeat split.
    exists (evs ++ evs'). split; [by rewrite app_assoc|by apply Forall_app].
  - repeat split; [done..|]. by exists evs.
Qed.

Lemma onlyEvents_weaken {A} (P Q : Event → Prop) (c : Async Backend A) :
  (∀ e, P e → Q e) → onlyEvents P c → onlyEvents Q c.
Proof.
  intros HPQ Hc w. destruct (Hc w) as (Hi & Hn & evs & He & HP).
  repeat split; [done..|]. exists evs. split; [done|].
  eapply Forall_impl; eauto.
Qed.

Lemma onlyEvents_promiseAllMap {A B} P (f : A → Async Backend B) (l : list A) :
  (∀ x, x ∈ l → onlyEvents P (f x)) → onlyEvents P (promiseAllMap f l).
Proof.
  induction l as [|x l IH]; intros Hf; simpl.
  - apply onlyEvents_ret.
  - apply onlyEvents_bind; [apply Hf; left|]. intros y.
    apply onlyEvents_bind; [apply IH; intros; apply Hf; by right|].
    intros ys. apply onlyEvents_ret.
Qed.

Lemma onlyEvents_invoke {R} (P : Event → Prop) stage fieldPath
    (hook : option (HookArgs → outcome R)) args otherwise :
  P (Invoked stage fieldPath) →
  onlyEvents P (invoke stage fieldPath hook args otherwise).
Proof.
  intros HP. destruct hook as [h|]; [|apply onlyEvents_ret].
  intros w. simpl. repeat split. exists [Invoked stage fieldPath].
  split; [done|]. by apply Forall_singleton.
Qed.

Lemma onlyEvents_forFields {R} P cfg (task : string → FieldConfig → Async Backend R) :
  (∀ name fc, (name, fc) ∈ fields cfg → onlyEvents P (task name fc)) →
  onlyEvents P (forFields cfg task).
Proof.
  intros Ht. apply onlyEvents_promiseAllMap. intros [name fc] Hin.
  apply onlyEvents_bind; [by apply Ht|]. intros r. apply onlyEvents_ret.
Qed.

Lemma onlyEvents_findItem P id : onlyEvents P (findItem id).
Proof.
  intros w. unfold findItem.
  destruct (stored w !! id); (repeat split; exists []; by rewrite app_nil_r).
Qed.

(** The validation stage invokes validation hooks and nothing else. *)
Lemma onlyEvents_validate cfg m args : onlyEvents isValidation (validate cfg m args).
Proof.
  destruct m; simpl; unfold validation;
    (apply onlyEvents_bind;
       [apply onlyEvents_forFields; intros; by apply onlyEvents_invoke|];
     intros perField;
     apply onlyEvents_bind; [by apply onlyEvents_invoke|];
     intros perList; apply onlyEvents_ret).
Qed.

(** Without nested operations, what precedes validation invokes
    [resolveInput] hooks and nothing else. *)
Lemma onlyEvents_prepare cfg m :
  noNestedOperations cfg → onlyEvents isResolveOrValidation (prepare cfg m).
Proof.
  intros Hpure.
  assert (Hres : ∀ args, onlyEvents isResolveOrValidation (resolveData cfg args)).
  { intros args. unfold resolveData.
    apply onlyEvents_bind.
    { unfold resolveRelationships. apply onlyEvents_bind; [|intros; apply onlyEvents_ret].
      apply onlyEvents_forFields. intros name fc Hin.
      destruct (resolveRelationship fc) as [resolve|] eqn:Hr; [|apply onlyEvents_ret].
      destruct (_ !! name) as [v|]; [|apply onlyEvents_ret].
      apply onlyEvents_bind; [|intros; apply onlyEvents_ret].
      intros w. rewrite (Hpure name fc resolve v _ w Hin Hr).
      repeat split. exists []. by rewrite app_nil_r. }
    intros rd2. apply onlyEvents_bind.
    { unfold fieldResolveInput. apply onlyEvents_bind; [|intros; apply onlyEvents_ret].
      apply onlyEvents_forFields. intros. by apply onlyEvents_invoke. }
    intros rd4. by apply onlyEvents_invoke. }
  destruct m as [data|id data|id]; simpl.
  - apply onlyEvents_bind; [apply Hres|]. intros; apply onlyEvents_ret.
  - apply onlyEvents_bind; [apply onlyEvents_findItem|]. intros existing.
    apply onlyEvents_bind; [apply Hres|]. intros; apply onlyEvents_ret.
  - apply onlyEvents_bind; [apply onlyEvents_findItem|]. intros existing.
    destruct (canDelete cfg existing); [apply onlyEvents_ret|apply onlyEvents_throw].
Qed.

Lemma messagesOf_returned hook args messages :
  hook args = Returned messages → messagesOf hook args = messages.
Proof. unfold messagesOf. by intros ->. Qed.

(** One step of waiting for all the tasks of a list. *)
Lemma promiseAllMap_cons {S A B} (f : A → Async S B) x (l : list A) (st : S) :
  promiseAllMap f (x :: l) st
  = match f x st with
    | (Returned y, st1) =>
        match promiseAllMap f l st1 with
        | (Returned ys, st2) => (Returned (y :: ys), st2)
        | (Thrown e, st2) => (Thrown e, st2)
        end
    | (Thrown e, st1) => (Thrown e, st1)
    end.
Proof.
  simpl. unfold async_bind. destruct (f x st) as [[y|e] st1]; [|done].
  by destruct (promiseAllMap f l st1) as [[ys|e] st2].
Qed.

(** The task of one field in a validation stage. *)
Lemma field_task stage (name : string)
    (hook : option (HookArgs → outcome (list string))) args (w : Backend) :
  (let* r := await invoke stage (Some name) hook args [] in async_ret (name, r)) w
  = match hook with
    | Some h =>
        (match h args with
         | Returned messages => Returned (name, messages)
         | Thrown e => Thrown e
         end,
         {| stored := stored w; nextId := nextId w;
            events := events w ++ [Invoked stage (Some name)] |})
    | None => (Returned (name, []), w)
    end.
Proof.
  unfold async_bind, invoke. destruct hook as [h|]; [|done]. by destruct (h args).
Qed.

(** The field hooks of a validation stage, taken from the hooks: either
    every hook returns and the stage gives their messages in the order of
    the field list, or the stage throws what one of them throws. *)
Lemma validation_fields stage
    (pick : ∀ R : Type, Hooks R → option (HookArgs → outcome (list string)))
    args (l : list (string * FieldConfig)) (w : Backend) :
  (Forall (λ hook, ∃ messages, hook args = Returned messages)
     (omap (λ '(_, fc), pick _ (fieldHooks fc)) l)
   ∧ ∃ perField,
       (promiseAllMap
          (λ '(name, fc),
             let* r := await invoke stage (Some name) (pick _ (fieldHooks fc)) args []
             in async_ret (name, r)) l w).1 = Returned perField
       ∧ concat (snd <$> perField)
         = concat ((λ hook, messagesOf hook args)
                     <$> omap (λ '(_, fc), pick _ (fieldHooks fc)) l))
  ∨ (∃ hook e,
       hook ∈ omap (λ '(_, fc), pick _ (fieldHooks fc)) l
       ∧ hook args = Thrown e
       ∧ (promiseAllMap
            (λ '(name, fc),
               let* r := await invoke stage (Some name) (pick _ (fieldHooks fc)) args []
               in async_ret (name, r)) l w).1 = Thrown e).
Proof.
  revert w. induction l as [|[name fc] l IH]; intros w.
  - left. split; [constructor|]. by exists [].
  - rewrite !promiseAllMap_cons. cbv beta iota. rewrite !field_task.
    cbn [omap list_omap].
    destruct (pick _ (fieldHooks fc)) as [h|].
    + destruct (h args) as [messages|e] eqn:Hh.
      * match goal with
        | |- context [promiseAllMap ?f l ?w'] =>
            destruct (IH w') as [[Hall (perField & Hr & Hc)]|(hook & e & Hin & He & Hr)];
            destruct (promiseAllMap f l w') as [[ys|e'] w2]; simpl in Hr; try done;
            injection Hr as ->
        end.
        -- left. split; [constructor; eauto|].
           exists ((name, messages) :: perField).
           split; [done|]. cbn. by rewrite (messagesOf_returned _ _ _ Hh), Hc.
        -- right. exists hook, e. split; [by right|]. by split.
      * right. exists h, e. split; [by left|]. by split.
    + match goal with
      | |- context [promiseAllMap ?f l ?w'] =>
          destruct (IH w') as [[Hall (perField & Hr & Hc)]|(hook & e & Hin & He & Hr)];
          destruct (promiseAllMap f l w') as [[ys|e'] w2]; simpl in Hr; try done;
          injection Hr as ->
      end.
      * left. split; [done|]. exists ((name, []) :: perField). by split.
      * right. exists hook, e. by repeat split.
Qed.

(** The validation stage: the field tasks, then the hook of the list. *)
Lemma validation_run cfg stage
    (pick : ∀ R : Type, Hooks R → option (HookArgs → outcome (list string)))
    args (w : Backend) :
  validation cfg stage pick args w
  = match promiseAllMap
            (λ '(name, fc),
               let* r := await invoke stage (Some name) (pick _ (fieldHooks fc)) args []
               in async_ret (name, r)) (fields cfg) w with
    | (Returned perField, w1) =>
        match pick _ (listHooks cfg) with
        | Some h =>
            (match h args with
             | Returned messages => Returned (concat (snd <$> perField) ++ messages)
             | Thrown e => Thrown e
             end,
             {| stored := stored w1; nextId := nextId w1;
                events := events w1 ++ [Invoked stage None] |})
        | None => (Returned (concat (snd <$> perField) ++ []), w1)
        end
    | (Thrown e, w1) => (Thrown e, w1)
    end.
Proof.
  unfold validation, forFields. unfold async_bind at 1.
  destruct (promiseAllMap _ _ _) as [[perField|e] w1]; [|done].
  unfold async_bind, invoke. destruct (pick _ (listHooks cfg)) as [h|]; [|done].
  by destruct (h args).
Qed.

(** The validation stage, taken from the hooks: when every validation hook
    returns, the stage gives all their messages, those of the fields in the
    order of the field list, then those of the list; otherwise it throws
    what one of the hooks throws. *)
Lemma validate_outcome cfg m args (w : Backend) :
  (Forall (λ hook, ∃ messages, hook args = Returned messages) (validationHooks cfg m)
   ∧ (validate cfg m args w).1 = Returned (recordedMessages cfg m args))
  ∨ (∃ hook e, hook ∈ validationHooks cfg m ∧ hook args = Thrown e
               ∧ (validate cfg m args w).1 = Thrown e).
Proof.
  assert (H : ∀ stage (pick : ∀ R : Type, Hooks R → option (HookArgs → outcome (list string))),
    (Forall (λ hook, ∃ messages, hook args = Returned messages)
       (omap (λ '(_, fc), pick _ (fieldHooks fc)) (fields cfg)
        ++ option_list (pick _ (listHooks cfg)))
     ∧ (validation cfg stage pick args w).1
       = Returned (concat ((λ hook, messagesOf hook args)
                     <$> (omap (λ '(_, fc), pick _ (fieldHooks fc)) (fields cfg)
                          ++ option_list (pick _ (listHooks cfg))))))
    ∨ (∃ hook e,
         hook ∈ omap (λ '(_, fc), pick _ (fieldHooks fc)) (fields cfg)
                ++ option_list (pick _ (listHooks cfg))
         ∧ hook args = Thrown e
         ∧ (validation cfg stage pick args w).1 = Thrown e)).
  { intros stage pick. rewrite !validation_run.
    destruct (validation_fields stage pick args (fields cfg) w)
      as [[Hall (perField & Hr & Hc)]|(hook & e & Hin & He & Hr)];
      match goal with
      | |- context [promiseAllMap ?f (fields cfg) w] =>
          destruct (promiseAllMap f (fields cfg) w) as [[ys|e'] w1]; simpl in Hr;
          try done; injection Hr as ->
      end.
    - destruct (pick _ (listHooks cfg)) as [h|]; simpl.
      + destruct (h args) as [messages|e] eqn:Hh; simpl.
        * left. split.
          -- apply Forall_app. split; [done|]. constructor; [eauto|constructor].
          -- rewrite fmap_app, concat_app, Hc. simpl.
             by rewrite (messagesOf_returned _ _ _ Hh), app_nil_r.
        * right. exists h, e. split; [|by split].
          apply elem_of_app. right. by left.
      + left. split; [by rewrite app_nil_r|].
        by rewrite !app_nil_r, Hc.
    - right. exists hook, e.
      split; [apply elem_of_app; by left|]. by split. }
  destruct m as [data|id data|id];
    [exact (H ValidateInput (@validateInput))..|exact (H ValidateDelete (@validateDelete))].
Qed.

(** Every message a validation hook records is among the recorded
    messages. *)
Lemma recordedMessages_all cfg m args hook messages message :
  hook ∈ validationHooks cfg m → hook args = Returned messages →
  message ∈ messages → message ∈ recordedMessages cfg m args.
Proof.
  intros Hin Hh Hm. unfold recordedMessages.
  induction (validationHooks cfg m) as [|h hooks IH]; [by apply elem_of_nil in Hin|].
  cbn. apply elem_of_app. apply elem_of_cons in Hin as [<-|Hin].
  - left. by rewrite (messagesOf_returned _ _ _ Hh).
  - right. by apply IH.
Qed.


End Stages.

Lemma testList_noNestedOperations : noNestedOperations testList.
Proof.
  intros name fc resolve v existing w Hin Hr.
  apply list_elem_of_In in Hin. simpl in Hin.
  destruct Hin as [[= <- <-]|[[= <- <-]|[]]]; discriminate.
Qed.



(** * Further properties *)

(** ** What the resolvers do to the item API *)

Section ResolverEffects.

Variable getAuthTokenErrorMessage : string → string → string → ErrorCode → string.
Variable acceptsData : Item → bool.
Variable delivers : string → string → string → bool.

(** An [updateOne] call keeps the set of items and changes at most the item
    it names. *)
Lemma updateOne_frame id data (w : World) :
  dom (items (updateOne acceptsData id data w).2) = dom (items w)
  ∧ ∀ id', id' ≠ id →
           items (updateOne acceptsData id data w).2 !! id' = items w !! id'.
Proof.
  unfold updateOne. destruct (acceptsData data); [|done].
  destruct (items w !! id) as [item|] eqn:Hi; [|done]. simpl. split.
  - rewrite dom_insert_L. apply elem_of_dom_2 in Hi.
    apply set_eq. intros x. rewrite elem_of_union, elem_of_singleton.
    split; [by intros [->|?]|by right].
  - intros id' Hne. by rewrite lookup_insert_ne.
Qed.

Lemma sendToken_items itemId identity token (w : World) :
  items (sendToken delivers itemId identity token w).2 = items w.
Proof. unfold sendToken. by destruct (delivers _ _ _). Qed.

Section SendLink.

Variable createAuthToken :
  string → bool → string → Items → outcome CreateResult.

Local Abbreviation sendLink :=
  (sendItemPasswordResetLink createAuthToken getAuthTokenErrorMessage acceptsData delivers).
Local Abbreviation creation cfg identity w :=
  (createAuthToken (identityField cfg) (protectIdentities cfg) identity (items w)).
Local Abbreviation tokenData token now :=
  ({[ tokenKey := VString token; issuedAtKey := VDate now; redeemedAtKey := VNull ]}
   : Item).

(** X1. When [createAuthToken] does not succeed (it fails with a code, fails
    without one, or throws) the send-link mutation calls neither [updateOne]
    nor [sendToken] and leaves every item as it was. *)
Theorem send_link_failure_is_silent cfg identity now (w : World) :
  (∀ itemId token, creation cfg identity w ≠ Returned (CreateSuccess itemId token)) →
  (sendLink cfg identity now w).2 = w.
Proof.
  intros Hc. unfold sendItemPasswordResetLink, async_bind, query.
  destruct (creation cfg identity w) as [[[c|]|itemId token]|e]; try done.
  by destruct (Hc itemId token).
Qed.

(** X2. The send-link mutation stores the token before it sends it.  When
    the write is accepted, the calls are [updateOne] then [sendToken], the
    record holds the token whether or not the delivery succeeds, and the
    call returns [null] exactly when the token is delivered.  When the write
    is rejected, or the item is gone, [sendToken] is not called, no item
    changes and the call throws. *)
Theorem send_link_stores_before_sending cfg identity now (w : World) itemId token :
  creation cfg identity w = Returned (CreateSuccess itemId token) →
  (∀ stored,
     acceptsData (tokenData token now) = true → items w !! itemId = Some stored →
     calls (sendLink cfg identity now w).2
     = calls w ++ [UpdateOne itemId (tokenData token now);
                   SendToken itemId identity token]
     ∧ items (sendLink cfg identity now w).2
       = <[itemId := tokenData token now ∪ stored]> (items w)
     ∧ ((sendLink cfg identity now w).1 = Returned None
        ↔ delivers itemId identity token = true)
     ∧ (delivers itemId identity token = false →
        ∃ e, (sendLink cfg identity now w).1 = Thrown e))
  ∧ (acceptsData (tokenData token now) = false ∨ items w !! itemId = None →
     calls (sendLink cfg identity now w).2
     = calls w ++ [UpdateOne itemId (tokenData token now)]
     ∧ items (sendLink cfg identity now w).2 = items w
     ∧ ∃ e, (sendLink cfg identity now w).1 = Thrown e).
Proof.
  intros Hc. unfold sendItemPasswordResetLink, async_bind, query. rewrite Hc.
  split.
  - intros stored Ha Hs. rewrite (updateOne_accepted _ _ _ stored) by done.
    unfold sendToken. simpl.
    destruct (delivers itemId identity token); simpl;
      (split; [by rewrite <- app_assoc|]); (split; [done|]); split; try done.
    + by eexists.
  - intros Hrej. unfold updateOne.
    destruct (acceptsData (tokenData token now)) eqn:Ha.
    + destruct Hrej as [?|Hn]; [done|]. rewrite Hn. simpl. eauto.
    + simpl. eauto.
Qed.

End SendLink.

Section Redeem.

Variable validateAuthToken :
  string → string → string → string → bool → Z → string → Z → Items →
  outcome ValidateResult.

Local Abbreviation redeem :=
  (redeemItemPasswordResetToken validateAuthToken getAuthTokenErrorMessage acceptsData).
Local Abbreviation validate :=
  (validateItemPasswordResetToken validateAuthToken getAuthTokenErrorMessage).
Local Abbreviation validation cfg identity token now w :=
  (validateAuthToken tokenType (listKey cfg) (identityField cfg) identity
     (protectIdentities cfg) (tokensValidForMins cfg) token now (items w)).

(** X3. When the write that marks the token as redeemed is rejected, or the
    item is gone, the redeem mutation throws after that one [updateOne]
    call: the secret is never written and no item changes. *)
Theorem redeem_stops_at_failed_mark cfg identity token secret now (w : World)
    itemId item :
  validation cfg identity token now w = Returned (ValidateSuccess itemId item) →
  acceptsData {[ redeemedAtKey := VDate now ]} = false ∨ items w !! itemId = None →
  ∃ e, redeem cfg identity token secret now w
       = (Thrown e,
          {| items := items w;
             calls := calls w ++ [UpdateOne itemId {[ redeemedAtKey := VDate now ]}] |}).
Proof.
  intros Hv Hrej. unfold redeemItemPasswordResetToken, async_bind, query.
  rewrite Hv. unfold updateOne.
  destruct (acceptsData {[redeemedAtKey := VDate now]}) eqn:Ha.
  - destruct Hrej as [?|Hn]; [done|]. rewrite Hn. eauto.
  - eauto.
Qed.

(** X4. After a redeem call that returned [null], the record found by the
    validation holds the new secret in the secret field and, when that is
    not the [RedeemedAt] field itself, the current time in [RedeemedAt];
    every other field, the token and [IssuedAt] among them, is as it was. *)
Theorem redeem_changes_two_fields cfg identity token secret now (w w' : World) :
  redeem cfg identity token secret now w = (Returned None, w') →
  ∃ itemId item before after,
    validation cfg identity token now w = Returned (ValidateSuccess itemId item)
    ∧ items w !! itemId = Some before
    ∧ items w' !! itemId = Some after
    ∧ after !! secretField cfg = Some (VString secret)
    ∧ (secretField cfg ≠ redeemedAtKey → after !! redeemedAtKey = Some (VDate now))
    ∧ ∀ k, k ≠ secretField cfg → k ≠ redeemedAtKey → after !! k = before !! k.
Proof.
  intros Hr.
  apply redeem_returned_null in Hr
    as (itemId & item & before & Hv & Hs & _ & _ & _ & Hi).
  exists itemId, item, before. eexists. split; [done|]. split; [done|].
  rewrite Hi, lookup_insert_eq. split; [done|]. split; [|split].
  - apply lookup_union_Some_l, lookup_singleton_eq.
  - intros Hne. rewrite lookup_union_r by by apply lookup_singleton_ne.
    apply lookup_union_Some_l, lookup_singleton_eq.
  - intros k Hk1 Hk2. by rewrite !lookup_union_r by by apply lookup_singleton_ne.
Qed.

(** X5. The validate query and the redeem mutation report the same
    failures: one returns a code and message exactly when the other, called
    with the same arguments on the same items, returns it too.  If the
    query returns [null], the mutation returns [null] or throws. *)
Theorem validate_predicts_redeem cfg identity token secret now (w : World) :
  (∀ e, (validate cfg identity token now w).1 = Returned (Some e)
        ↔ (redeem cfg identity token secret now w).1 = Returned (Some e))
  ∧ ((validate cfg identity token now w).1 = Returned None →
     (redeem cfg identity token secret now w).1 = Returned None
     ∨ ∃ err, (redeem cfg identity token secret now w).1 = Thrown err).
Proof.
  unfold validateItemPasswordResetToken, async_bind, query.
  destruct (validation cfg identity token now w) as [[c|itemId item]|err] eqn:Hv; simpl.
  - rewrite (redeem_failed _ _ _ _ _ _ _ _ _ _ Hv). simpl. split; [done|]. by left.
  - split.
    + intros e. split; [done|]. intros Hr. exfalso.
      exact (redeem_validated getAuthTokenErrorMessage acceptsData validateAuthToken
               cfg identity token secret now w itemId item Hv e Hr).
    + intros _.
      destruct (redeem cfg identity token secret now w).1 as [[e|]|err] eqn:Hr.
      * exfalso.
        exact (redeem_validated getAuthTokenErrorMessage acceptsData validateAuthToken
                 cfg identity token secret now w itemId item Hv e Hr).
      * by left.
      * right. by eexists.
  - unfold redeemItemPasswordResetToken, async_bind, query. rewrite Hv. simpl.
    split; [done|]. done.
Qed.

Section BothHelpers.

Variable createAuthToken :
  string → bool → string → Items → outcome CreateResult.

Local Abbreviation sendLink :=
  (sendItemPasswordResetLink createAuthToken getAuthTokenErrorMessage acceptsData delivers).
Local Abbreviation creation cfg identity w :=
  (createAuthToken (identityField cfg) (protectIdentities cfg) identity (items w)).

(** X6. The resolvers never create or delete an item, and change no item
    other than the one their helper answered with: the validate query
    changes nothing at all, the redeem mutation only the item of a
    successful validation, the send-link mutation only the item of a
    successful token creation. *)
Theorem resolvers_touch_only_their_item cfg identity token secret now (w : World) :
  (validate cfg identity token now w).2 = w
  ∧ (dom (items (redeem cfg identity token secret now w).2) = dom (items w)
     ∧ ∀ id, (∀ item, validation cfg identity token now w
                      ≠ Returned (ValidateSuccess id item)) →
             items (redeem cfg identity token secret now w).2 !! id = items w !! id)
  ∧ (dom (items (sendLink cfg identity now w).2) = dom (items w)
     ∧ ∀ id, (∀ tok, creation cfg identity w ≠ Returned (CreateSuccess id tok)) →
             items (sendLink cfg identity now w).2 !! id = items w !! id).
Proof.
  split; [|split].
  - unfold validateItemPasswordResetToken, async_bind, query.
    by destruct (validation cfg identity token now w) as [[c|itemId item]|err].
  - unfold redeemItemPasswordResetToken, async_bind, query.
    destruct (validation cfg identity token now w) as [[c|itemId item]|err];
      [done| |done].
    pose proof (updateOne_frame itemId {[redeemedAtKey := VDate now]} w) as [Hd1 Hf1].
    destruct (updateOne acceptsData itemId {[redeemedAtKey := VDate now]} w)
      as [[[]|e1] w1]; simpl in *.
    + pose proof (updateOne_frame itemId {[secretField cfg := VString secret]} w1)
        as [Hd2 Hf2].
      destruct (updateOne acceptsData itemId {[secretField cfg := VString secret]} w1)
        as [[[]|e2] w2]; simpl in *;
        (split; [congruence|]); intros id Hid;
        (destruct (decide (id = itemId)) as [->|Hne]; [by destruct (Hid item)|]);
        by rewrite Hf2, Hf1.
    + split; [done|]. intros id Hid.
      destruct (decide (id = itemId)) as [->|Hne]; [by destruct (Hid item)|].
      by apply Hf1.
  - unfold sendItemPasswordResetLink, async_bind, query.
    destruct (creation cfg identity w) as [[[c|]|itemId tok]|err]; try done.
    match goal with |- context [updateOne _ _ ?d _] => set (data := d) end.
    pose proof (updateOne_frame itemId data w) as [Hd1 Hf1].
    destruct (updateOne acceptsData itemId data w) as [[[]|e1] w1]; simpl in *.
    + pose proof (sendToken_items itemId identity tok w1) as Hs.
      destruct (sendToken delivers itemId identity tok w1) as [[[]|e2] w2];
        simpl in *; rewrite Hs; (split; [done|]); intros id Hid;
        (destruct (decide (id = itemId)) as [->|Hne]; [by destruct (Hid tok)|]);
        by apply Hf1.
    + split; [done|]. intros id Hid.
      destruct (decide (id = itemId)) as [->|Hne]; [by destruct (Hid tok)|].
      by apply Hf1.
Qed.

End BothHelpers.
End Redeem.
End ResolverEffects.

(** ** Normalized paths *)

(** A segment without a slash. *)
Fixpoint slashFree (s : string) : bool :=
  match s with
  | EmptyString => true
  | String c rest => negb (Ascii.eqb c slash) && slashFree rest
  end.

(** A proper name: neither empty nor [.] nor [..], and without a slash. *)
Definition plain (s : string) : Prop :=
  s ≠ "" ∧ s ≠ "." ∧ s ≠ ".." ∧ slashFree s = true.

(** The stack of [normalizeSegments], top first: names above, and below them
    nothing but the [..] that a relative path keeps. *)
Fixpoint okStack (allowAboveRoot : bool) (stack : list string) : Prop :=
  match stack with
  | [] => True
  | s :: below =>
      (plain s ∧ okStack allowAboveRoot below)
      ∨ (s = ".." ∧ allowAboveRoot = true ∧ Forall (λ x, x = "..") below)
  end.

Lemma append_cons c (a b : string) : String c a +:+ b = String c (a +:+ b).
Proof. reflexivity. Qed.

Lemma append_empty_l (b : string) : "" +:+ b = b.
Proof. reflexivity. Qed.

Lemma append_empty_r (s : string) : s +:+ "" = s.
Proof. induction s as [|c s IH]; [done|]. by rewrite append_cons, IH. Qed.

Lemma splitPath_nonempty (p : string) : splitPath p ≠ [].
Proof.
  destruct p as [|c p]; simpl; [done|].
  destruct (Ascii.eqb c slash); [done|]. by destruct (splitPath p).
Qed.

Lemma splitPath_slashFree (p : string) : Forall (λ s, slashFree s = true) (splitPath p).
Proof.
  induction p as [|c p IH]; simpl; [by repeat constructor|].
  destruct (Ascii.eqb c slash) eqn:Hc; [by constructor|].
  destruct (splitPath p) as [|seg rest]; [by repeat (constructor; simpl; rewrite ?Hc)|].
  inversion IH; subst. constructor; [|done]. simpl. by rewrite Hc.
Qed.

Lemma splitPath_app (a b : string) :
  splitPath (a +:+ String slash b) = splitPath a ++ splitPath b.
Proof.
  induction a as [|c a IH]; [done|]. rewrite append_cons. simpl. rewrite IH.
  destruct (Ascii.eqb c slash); [done|].
  pose proof (splitPath_nonempty a). by destruct (splitPath a).
Qed.

Lemma splitPath_segment (s : string) : slashFree s = true → splitPath s = [s].
Proof.
  induction s as [|c s IH]; simpl; [done|].
  destruct (Ascii.eqb c slash); [done|]. simpl. intros Hs. by rewrite IH.
Qed.

Lemma splitPath_joinPath (segs : list string) :
  segs ≠ [] → Forall (λ s, slashFree s = true) segs →
  splitPath (joinPath segs) = segs.
Proof.
  induction segs as [|s [|s' rest] IH]; intros Hne Hall; [done| |].
  - simpl. apply splitPath_segment. by inversion Hall.
  - change (joinPath (s :: s' :: rest))
      with (s +:+ String slash (joinPath (s' :: rest))).
    inversion Hall; subst.
    rewrite splitPath_app, splitPath_segment, IH by done. done.
Qed.

(** Reading the segments in two parts. *)
Lemma normalizeSegments_app allow stack l1 l2 :
  normalizeSegments allow stack (l1 ++ l2)
  = normalizeSegments allow (rev (normalizeSegments allow stack l1)) l2.
Proof.
  revert stack. induction l1 as [|seg l1 IH]; intros stack; simpl.
  - by rewrite rev_involutive.
  - repeat case_bool_decide; try apply IH.
    + destruct stack as [|top below]; [apply IH|].
      case_bool_decide; apply IH.
Qed.

Lemma okStack_elements allow stack s :
  okStack allow stack → s ∈ stack → plain s ∨ (s = ".." ∧ allow = true).
Proof.
  induction stack as [|t below IH]; intros Hok Hin; [by apply elem_of_nil in Hin|].
  apply elem_of_cons in Hin as [->|Hin]; simpl in Hok.
  - destruct Hok as [[? _]|(-> & ? & _)]; eauto.
  - destruct Hok as [[_ ?]|(_ & ? & Hd)]; [eauto|].
    right. rewrite Forall_forall in Hd. split; [by apply Hd|done].
Qed.

(** Below a [..] there are only [..]. *)
Lemma okStack_below_dots allow above below :
  okStack allow (above ++ ".." :: below) →
  allow = true ∧ Forall (λ x, x = "..") below.
Proof.
  induction above as [|t above IH]; simpl.
  - intros [[(_ & _ & ? & _) _]|(_ & ? & ?)]; done.
  - intros [[_ ?]|(_ & ? & Hd)]; [eauto|].
    split; [done|]. apply Forall_app in Hd as [_ Hd]. by inversion Hd.
Qed.

(** The stack stays well-formed while segments are read. *)
Lemma normalizeSegments_ok allow stack segs :
  okStack allow stack → Forall (λ s, slashFree s = true) segs →
  okStack allow (rev (normalizeSegments allow stack segs)).
Proof.
  revert stack. induction segs as [|seg segs IH]; intros stack Hok Hall; simpl.
  - by rewrite rev_involutive.
  - apply Forall_cons in Hall as [Hs Hall].
    case_bool_decide as H1; [by apply IH|].
    case_bool_decide as H2.
    + subst seg. destruct stack as [|top below].
      * apply IH; [|done]. destruct allow; simpl; [|done]. right.
        split; [done|]. split; [done|]. constructor.
      * case_bool_decide as H3.
        -- subst top. apply IH; [|done]. destruct allow; [|done].
           simpl in *. right. split; [done|]. split; [done|].
           destruct Hok as [[(_ & _ & ? & _) _]|(_ & _ & Hd)]; [done|].
           by constructor.
        -- apply IH; [|done]. simpl in Hok.
           destruct Hok as [[_ ?]|(? & _)]; done.
    + apply IH; [|done]. simpl. left. split; [|done].
      repeat split; try done; intros ->; apply H1; eauto.
Qed.

(** Reading segments that are already in normal form pushes every one. *)
Lemma normalizeSegments_normal allow stack l :
  okStack allow (rev l ++ stack) →
  normalizeSegments allow stack l = rev stack ++ l.
Proof.
  revert stack. induction l as [|x l IH]; intros stack Hok; simpl.
  - by rewrite app_nil_r.
  - simpl in Hok. rewrite <- app_assoc in Hok. simpl in Hok.
    assert (Hx : plain x ∨ (x = ".." ∧ allow = true)).
    { eapply okStack_elements; [exact Hok|]. apply elem_of_app. right. by left. }
    rewrite bool_decide_eq_false_2
      by (intros [->| ->]; destruct Hx as [(? & ? & _)|[? _]]; done).
    destruct Hx as [(_ & _ & Hnd & _)|[-> ->]].
    + rewrite bool_decide_eq_false_2 by done.
      rewrite IH by done. simpl. by rewrite <- app_assoc.
    + rewrite bool_decide_eq_true_2 by done.
      apply okStack_below_dots in Hok as Hd. destruct Hd as [_ Hd].
      destruct stack as [|top below].
      * rewrite IH by done. done.
      * inversion Hd; subst. rewrite bool_decide_eq_true_2 by done.
        rewrite IH by done. simpl. by rewrite <- app_assoc.
Qed.

(** The segments of a path are in normal form. *)
Lemma segments_ok (p : string) : okStack (negb (isAbsolute p)) (rev (segments p)).
Proof. apply normalizeSegments_ok; [done|apply splitPath_slashFree]. Qed.

Lemma okStack_slashFree allow stack :
  okStack allow stack → Forall (λ s, slashFree s = true) stack.
Proof.
  intros Hok. apply Forall_forall. intros s Hin.
  destruct (okStack_elements _ _ _ Hok Hin) as [(_ & _ & _ & ?)|[-> _]]; done.
Qed.

Lemma isAbsolute_segment (s rest : string) :
  s ≠ "" → slashFree s = true → isAbsolute (s +:+ rest) = false.
Proof.
  destruct s as [|c s]; [done|]. intros _. simpl.
  by destruct (Ascii.eqb c slash).
Qed.

Lemma joinPath_cons (s : string) (rest : list string) :
  ∃ tail, joinPath (s :: rest) = s +:+ tail.
Proof.
  destruct rest as [|s' rest]; simpl.
  - exists "". by rewrite append_empty_r.
  - by eexists.
Qed.

Lemma joinPath_nonempty (s : string) (rest : list string) :
  s ≠ "" → joinPath (s :: rest) ≠ "".
Proof.
  intros Hs. destruct (joinPath_cons s rest) as [tail ->]. by destruct s.
Qed.

Lemma endsWithSlash_cons c (s : string) :
  s ≠ "" → endsWithSlash (String c s) = endsWithSlash s.
Proof. by destruct s. Qed.

Lemma endsWithSlash_app (a b : string) :
  b ≠ "" → endsWithSlash (a +:+ b) = endsWithSlash b.
Proof.
  intros Hb. induction a as [|c a IH]; [done|].
  rewrite append_cons, endsWithSlash_cons; [done|]. by destruct a, b.
Qed.

Lemma endsWithSlash_segment (s : string) : slashFree s = true → endsWithSlash s = false.
Proof.
  induction s as [|c s IH]; [done|]. simpl. intros [Hc Hs]%andb_prop.
  destruct s; [by destruct (Ascii.eqb c slash)|by apply IH].
Qed.

Lemma endsWithSlash_joinPath (segs : list string) :
  Forall (λ s, s ≠ "" ∧ slashFree s = true) segs → endsWithSlash (joinPath segs) = false.
Proof.
  induction segs as [|s [|s' rest] IH]; intros Hall; [done| |].
  - simpl. apply endsWithSlash_segment. by inversion Hall as [|?? []].
  - change (joinPath (s :: s' :: rest))
      with (s +:+ String slash (joinPath (s' :: rest))).
    apply Forall_cons in Hall as [_ Hall].
    rewrite endsWithSlash_app by done.
    rewrite endsWithSlash_cons; [by apply IH|].
    apply joinPath_nonempty. by inversion Hall as [|?? []].
Qed.

(** The segments of a path are nonempty and without a slash. *)
Lemma segments_proper (p : string) :
  Forall (λ s, s ≠ "" ∧ slashFree s = true) (segments p).
Proof.
  apply Forall_forall. intros s Hin.
  destruct (okStack_elements _ (rev (segments p)) s (segments_ok p))
    as [(? & _ & _ & ?)|[-> _]]; [|done..].
  apply list_elem_of_In. rewrite <- in_rev. by apply list_elem_of_In.
Qed.

(** The text [normalize] builds from the segments of a path. *)
Definition render (absolute trailing : bool) (segs : list string) : string :=
  (if absolute then "/" else "") +:+ joinPath segs +:+ (if trailing then "/" else "").

Lemma splitPath_render absolute trailing (segs : list string) :
  segs ≠ [] → Forall (λ s, s ≠ "" ∧ slashFree s = true) segs →
  splitPath (render absolute trailing segs)
  = (if absolute then [""] else []) ++ segs ++ (if trailing then [""] else []).
Proof.
  intros Hne Hall.
  assert (Hsf : Forall (λ s, slashFree s = true) segs)
    by (eapply Forall_impl; [exact Hall|]; by intros ? [_ ?]).
  assert (Hrest : splitPath (joinPath segs +:+ (if trailing then "/" else ""))
                  = segs ++ (if trailing then [""] else [])).
  { destruct trailing.
    - change "/" with (String slash ""). by rewrite splitPath_app, splitPath_joinPath.
    - by rewrite append_empty_r, app_nil_r, splitPath_joinPath. }
  unfold render. destruct absolute.
  - change ("/" +:+ ?x) with (String slash x).
    change (splitPath (String slash ?x)) with ("" :: splitPath x).
    by rewrite Hrest.
  - by rewrite append_empty_l, Hrest.
Qed.

Lemma isAbsolute_render absolute trailing (segs : list string) :
  segs ≠ [] → Forall (λ s, s ≠ "" ∧ slashFree s = true) segs →
  isAbsolute (render absolute trailing segs) = absolute.
Proof.
  intros Hne Hall. unfold render. destruct absolute; [done|].
  rewrite append_empty_l. destruct segs as [|s rest]; [done|].
  destruct (joinPath_cons s rest) as [tail ->].
  apply Forall_cons in Hall as [[Hs Hf] _].
  destruct s as [|c s]; [done|]. rewrite !append_cons. simpl in *.
  by destruct (Ascii.eqb c slash).
Qed.

Lemma endsWithSlash_render absolute trailing (segs : list string) :
  segs ≠ [] → Forall (λ s, s ≠ "" ∧ slashFree s = true) segs →
  endsWithSlash (render absolute trailing segs) = trailing.
Proof.
  intros Hne Hall. unfold render.
  assert (Hj : joinPath segs ≠ "").
  { destruct segs as [|s rest]; [done|]. apply joinPath_nonempty.
    by apply Forall_cons in Hall as [[? _] _]. }
  destruct trailing.
  - rewrite endsWithSlash_app by (by destruct (joinPath segs)).
    by apply endsWithSlash_app.
  - rewrite append_empty_r, endsWithSlash_app by done.
    by apply endsWithSlash_joinPath.
Qed.

(** Rendering segments in normal form and reading them again gives them
    back. *)
Lemma segments_render trailing (p : string) :
  segments p ≠ [] →
  segments (render (isAbsolute p) trailing (segments p)) = segments p.
Proof.
  intros Hne. pose proof (segments_proper p) as Hall.
  unfold segments at 1.
  rewrite isAbsolute_render, splitPath_render by done.
  assert (Hnorm : ∀ stack, stack = [] →
            normalizeSegments (negb (isAbsolute p)) stack (segments p) = segments p).
  { intros stack ->. rewrite normalizeSegments_normal; [done|].
    rewrite app_nil_r. apply segments_ok. }
  rewrite app_assoc, normalizeSegments_app.
  assert (Hfront : normalizeSegments (negb (isAbsolute p)) []
                     ((if isAbsolute p then [""] else []) ++ segments p) = segments p).
  { destruct (isAbsolute p); simpl; by apply Hnorm. }
  rewrite Hfront. destruct trailing; simpl; by rewrite rev_involutive.
Qed.

Lemma normalize_render (p : string) :
  p ≠ "" → segments p ≠ [] →
  normalize p = render (isAbsolute p) (endsWithSlash p) (segments p).
Proof.
  intros Hp Hne. unfold normalize, render. destruct p as [|c p]; [done|].
  by destruct (segments (String c p)).
Qed.

Lemma isAbsolute_normalize (p : string) : isAbsolute (normalize p) = isAbsolute p.
Proof.
  destruct (decide (p = "")) as [->|Hp]; [done|].
  destruct (decide (segments p = [])) as [He|Hne].
  - unfold normalize. destruct p as [|c p]; [done|]. rewrite He.
    destruct (isAbsolute (String c p)); [done|].
    by destruct (endsWithSlash (String c p)).
  - rewrite normalize_render by done.
    apply isAbsolute_render; [done|apply segments_proper].
Qed.

Lemma segments_normalize (p : string) : segments (normalize p) = segments p.
Proof.
  destruct (decide (p = "")) as [->|Hp]; [done|].
  destruct (decide (segments p = [])) as [He|Hne].
  - unfold normalize. destruct p as [|c p]; [done|]. rewrite He.
    destruct (isAbsolute (String c p)); [done|].
    by destruct (endsWithSlash (String c p)).
  - rewrite normalize_render by done. by apply segments_render.
Qed.

(** [Path.normalize] is idempotent. *)
Lemma normalize_idempotent (p : string) : normalize (normalize p) = normalize p.
Proof.
  destruct (decide (p = "")) as [->|Hp]; [done|].
  destruct (decide (segments p = [])) as [He|Hne].
  - assert (Hn : normalize p = if isAbsolute p then "/"
                               else if endsWithSlash p then "./" else ".").
    { unfold normalize. destruct p as [|c p]; [done|]. by rewrite He. }
    rewrite Hn. destruct (isAbsolute p); [done|]. by destruct (endsWithSlash p).
  - pose proof (segments_proper p) as Hall.
    rewrite (normalize_render p) by done.
    set (r := render (isAbsolute p) (endsWithSlash p) (segments p)).
    assert (Hr : r ≠ "").
    { intros Hr. pose proof (splitPath_render (isAbsolute p) (endsWithSlash p)
                               (segments p) Hne Hall) as Hs.
      fold r in Hs. rewrite Hr in Hs. simpl in Hs.
      destruct (isAbsolute p), (segments p) as [|s [|]]; try done;
        simpl in Hs; try (by destruct (endsWithSlash p));
        destruct (endsWithSlash p); simplify_eq/=;
        by apply Forall_cons in Hall as [[? _] _]. }
    rewrite normalize_render; subst r.
    + by rewrite isAbsolute_render, endsWithSlash_render, segments_render.
    + done.
    + by rewrite segments_render.
Qed.

Lemma join_normalized (parts : list string) : normalize (join parts) = join parts.
Proof.
  unfold join. destruct (filter _ parts); [done|]. apply normalize_idempotent.
Qed.

(** ** What the generator writes *)

#[global] Instance wrote_dec path op : Decision (wrote path op).
Proof. destruct op; simpl; apply _. Defined.

(** The computation only writes files: the files it does not write are as
    they were, the files that were there or that it writes are there; and
    [Q] holds of its result and of the operations it has added, when it
    returns. *)
Definition writer {A} (c : Async Disk A) (Q : A → list FsOp → Prop) : Prop :=
  ∀ d, ∃ new,
    ops (c d).2 = ops d ++ new
    ∧ Forall isWrite new
    ∧ (∀ path, ¬ Exists (wrote path) new → files (c d).2 !! path = files d !! path)
    ∧ (∀ path, is_Some (files d !! path) ∨ Exists (wrote path) new →
               is_Some (files (c d).2 !! path))
    ∧ ∀ a, (c d).1 = Returned a → Q a new.

Lemma writer_pure {A} (f : Disk → outcome A) (Q : A → list FsOp → Prop) :
  (∀ d a, f d = Returned a → Q a []) → writer (λ d, (f d, d)) Q.
Proof.
  intros HQ d. exists []. simpl. rewrite app_nil_r.
  repeat split; [done..| |by apply HQ].
  intros path [?|H%Exists_nil]; done.
Qed.

Lemma writer_ret {A} (a : A) (Q : A → list FsOp → Prop) :
  Q a [] → writer (async_ret a) Q.
Proof. intros HQ. apply (writer_pure (λ _, Returned a)). by intros _ ? [= <-]. Qed.

Lemma writer_throw {A} e (Q : A → list FsOp → Prop) : writer (throw e) Q.
Proof. by apply (writer_pure (λ _, Thrown e)). Qed.

Lemma writer_consequence {A} (c : Async Disk A) (Q Q' : A → list FsOp → Prop) :
  (∀ a new, Q a new → Q' a new) → writer c Q → writer c Q'.
Proof.
  intros HQ Hc d. destruct (Hc d) as (new & ? & ? & ? & ? & ?).
  exists new. repeat split; auto.
Qed.

Lemma writer_bind {A B} (c : Async Disk A) (k : A → Async Disk B)
    (Q1 : A → list FsOp → Prop) (Q2 : A → B → list FsOp → Prop) :
  writer c Q1 → (∀ a, writer (k a) (Q2 a)) →
  writer (async_bind c k)
    (λ b new, ∃ a new1 new2, new = new1 ++ new2 ∧ Q1 a new1 ∧ Q2 a b new2).
Proof.
  intros Hc Hk d. unfold async_bind.
  destruct (Hc d) as (new1 & Ho1 & Hw1 & Hf1 & Hp1 & HQ1).
  destruct (c d) as [[a|e] d1]; simpl in *.
  - destruct (Hk a d1) as (new2 & Ho2 & Hw2 & Hf2 & Hp2 & HQ2).
    exists (new1 ++ new2). rewrite Ho2, Ho1, <- app_assoc.
    split; [done|]. split; [by apply Forall_app|]. split; [|split].
    + intros path Hn. rewrite Hf2, Hf1; [done|..];
        intros ?; apply Hn, Exists_app; auto.
    + intros path [Hs|[H1|H2]%Exists_app]; apply Hp2; auto.
    + intros b Hb. exists a, new1, new2. auto.
  - exists new1. repeat split; auto. done.
Qed.

Lemma writer_outputFile path content :
  writer (outputFile path content) (λ _ new, new = [Written path content]).
Proof.
  intros d. exists [Written path content]. simpl.
  split; [done|]. split; [by repeat constructor|]. split; [|split; [|done]].
  - intros p Hn. apply lookup_insert_ne. intros <-. apply Hn. by left.
  - intros p [Hs|[Hw|Hn%Exists_nil]%Exists_cons]; [|simpl in Hw; subst|done].
    + destruct (decide (path = p)) as [->|Hne];
        [by rewrite lookup_insert_eq|by rewrite lookup_insert_ne].
    + by rewrite lookup_insert_eq.
Qed.

Lemma writer_copyFile src dest :
  writer (copyFile src dest) (λ _ new, new = [Copied src dest]).
Proof.
  intros d. unfold copyFile. destruct (files d !! src) as [content|].
  - exists [Copied src dest]. simpl.
    split; [done|]. split; [by repeat constructor|]. split; [|split; [|done]].
    + intros p Hn. apply lookup_insert_ne. intros <-. apply Hn. by left.
    + intros p [Hs|[Hw|Hn%Exists_nil]%Exists_cons]; [|simpl in Hw; subst|done].
      * destruct (decide (dest = p)) as [->|Hne];
          [by rewrite lookup_insert_eq|by rewrite lookup_insert_ne].
      * by rewrite lookup_insert_eq.
  - exists []. simpl. rewrite app_nil_r. repeat split; [done..| |done].
    intros p [?|H%Exists_nil]; done.
Qed.

(** One write for each element of the list, in order. *)
Lemma writer_promiseAllMap {A B} (f : A → Async Disk B) (g : A → B)
    (target : A → string) (l : list A) :
  (∀ x, writer (f x) (λ y new, y = g x ∧ ∃ op, new = [op] ∧ wrote (target x) op)) →
  writer (promiseAllMap f l)
    (λ ys new, ys = map g l ∧ Forall2 (λ x op, wrote (target x) op) l new).
Proof.
  intros Hf. induction l as [|x l IH]; simpl.
  - apply writer_ret. by split; [|constructor].
  - eapply writer_consequence; [|apply writer_bind; [apply Hf|]; intros y;
      apply writer_bind; [apply IH|]; intros ys;
      apply (writer_ret _ (λ r new, r = y :: ys ∧ new = []))]; [|done].
    intros r new (y & new1 & new23 & -> & [-> (op & -> & Hop)]
                    & ys & new2 & new3 & -> & [-> Hall] & -> & ->).
    rewrite app_nil_r. split; [done|]. by constructor.
Qed.

Lemma writer_getDoesAdminConfigExist resolveSync cwd :
  writer (getDoesAdminConfigExist resolveSync cwd) (λ _ new, new = []).
Proof.
  intros d.
  pose proof (writer_pure
    (λ d, match resolveSync (join [cwd; "admin"; "config"]) [".ts"; ".tsx"; ".js"]
                  (files d) with
          | Resolved => Returned true
          | ModuleNotFound => Returned false
          | ResolveError err => Thrown err
          end) (λ _ new, new = []) (λ _ _ _, eq_refl) d) as H.
  unfold getDoesAdminConfigExist. simpl in H. by destruct (resolveSync _ _ _).
Qed.

(** A call of [writeAdminFile] that returns has put one file at the joined
    path and returns that path. *)
Lemma writer_writeAdminFile prettierFormat file dir :
  writer (writeAdminFile prettierFormat file dir)
    (λ path new, path = join [dir; outputPath file]
                 ∧ ∃ op, new = [op] ∧ wrote (join [dir; outputPath file]) op).
Proof.
  destruct file as [src out|inp out]; simpl.
  - eapply writer_consequence;
      [|apply writer_bind; [apply (writer_pure _ (λ _ new, new = [])); done|];
        intros formatted; apply writer_bind; [apply writer_outputFile|];
        intros ?; apply (writer_ret _ (λ r new, r = normalize (join [dir; out])
                                                 ∧ new = [])); done].
    intros r new (formatted & ? & ? & -> & -> & [] & ? & ? & -> & -> & -> & ->).
    rewrite join_normalized. split; [done|]. by eexists.
  - destruct (negb (isAbsolute inp)); [apply writer_throw|].
    eapply writer_consequence;
      [|apply writer_bind; [apply writer_copyFile|];
        intros ?; apply (writer_ret _ (λ r new, r = normalize (join [dir; out])
                                                 ∧ new = [])); done].
    intros r new ([] & ? & ? & -> & -> & -> & ->).
    rewrite join_normalized. split; [done|]. by eexists.
Qed.

Lemma writer_writeUserPage dirname relative serializePathForImport
    dir userPagesDir filename :
  writer (writeUserPage dirname relative serializePathForImport dir userPagesDir filename)
    (λ r new, r = () ∧ ∃ op, new = [op] ∧ wrote (join [dir; "pages"; filename]) op).
Proof.
  eapply writer_consequence; [|apply writer_outputFile].
  intros [] new ->. split; [done|]. by eexists.
Qed.

(** Where [writeAdminFile] puts a file. *)
Definition target (dir : string) (file : AdminFileToWrite) : string :=
  join [dir; outputPath file].

(** The framework files that pass the filter of lines 73-77, the user's
    files having been written. *)
Definition keptFiles (dir : string) (userFiles frameworkFiles : list AdminFileToWrite)
  : list AdminFileToWrite :=
  filter (λ x, normalize (outputPath x)
               ∉ (list_to_set (map (target dir) userFiles) : gset string))
    frameworkFiles.

Section GeneratorRuns.

Variable prettierFormat : string → outcome string.
Variable resolveSync : string → list string → gmap string string → Resolution.
Variable writeAdminFiles : bool → string → list AdminFileToWrite.
Variable userPages : list (list AdminFileToWrite).
Variable fastGlob : string → string → gmap string string → list string.
Variable dirname : string → string.
Variable relative : string → string → string.
Variable serializePathForImport : string → string.
Variable cwd : string.

Local Abbreviation generate :=
  (generateAdminUI prettierFormat resolveSync writeAdminFiles userPages fastGlob
     dirname relative serializePathForImport cwd).
Local Abbreviation kept dir configFileExists :=
  (keptFiles dir (concat userPages) (writeAdminFiles configFileExists dir)).

(** The run of [generateAdminUI]: the removal, then writes only; and on
    return one write per user file, then one per framework file that passed
    the filter, then one per page found, in this order. *)
Lemma generateAdminUI_run dir (d : Disk) :
  ∃ since,
    ops (generate dir d).2 = ops d ++ Removed dir :: since
    ∧ Forall isWrite since
    ∧ (∀ path, ¬ Exists (wrote path) since →
               files (generate dir d).2 !! path = files (remove dir d).2 !! path)
    ∧ (∀ path, Exists (wrote path) since → is_Some (files (generate dir d).2 !! path))
    ∧ ((generate dir d).1 = Returned () →
       ∃ configFileExists found userOps frameworkOps pageOps,
         since = userOps ++ frameworkOps ++ pageOps
         ∧ Forall2 (λ file op, wrote (target dir file) op) (concat userPages) userOps
         ∧ Forall2 (λ file op, wrote (target dir file) op)
             (kept dir configFileExists) frameworkOps
         ∧ Forall2 (λ filename op, wrote (join [dir; "pages"; filename]) op)
             found pageOps).
Proof.
  unfold generateAdminUI. unfold async_bind at 1.
  change (remove dir d) with
    (Returned (), {| files := filter (λ kv, inside dir kv.1 = false) (files d);
                     ops := ops d ++ [Removed dir] |}).
  cbv beta iota.
  match goal with
  | |- context [(?c {| files := ?f; ops := ?o |}).2] =>
      assert (Hw : writer c
        (λ _ new, ∃ configFileExists found userOps frameworkOps pageOps,
           new = userOps ++ frameworkOps ++ pageOps
           ∧ Forall2 (λ file op, wrote (target dir file) op) (concat userPages) userOps
           ∧ Forall2 (λ file op, wrote (target dir file) op)
               (kept dir configFileExists) frameworkOps
           ∧ Forall2 (λ filename op, wrote (join [dir; "pages"; filename]) op)
               found pageOps));
      [|destruct (Hw {| files := f; ops := o |})
          as (since & Ho & Hws & Hf & Hp & HQ)]
  end.
  - eapply writer_consequence;
      [|apply writer_bind;
          [apply (writer_promiseAllMap _ (target dir) (target dir));
           intros file; apply writer_writeAdminFile|];
        intros savedFiles; apply writer_bind;
          [apply writer_getDoesAdminConfigExist|];
        intros configFileExists; apply writer_bind;
          [apply (writer_promiseAllMap _ (target dir) (target dir));
           intros file; apply writer_writeAdminFile|];
        intros ?; apply writer_bind;
          [apply (writer_pure _ (λ _ new, new = [])); done|];
        intros found; apply writer_bind;
          [apply (writer_promiseAllMap _ (λ _, ()) (λ filename,
                    join [dir; "pages"; filename]));
           intros filename; apply writer_writeUserPage|];
        intros ?; apply (writer_ret _ (λ _ new, new = [])); done].
    intros [] new (savedFiles & userOps & ? & -> & [-> Huser]
                     & b & ? & ? & -> & -> & ? & frameworkOps & ? & -> & [_ Hfw]
                     & found & ? & ? & -> & -> & ? & pageOps & ? & -> & [_ Hpages] & ->).
    exists b, found, userOps, frameworkOps, pageOps.
    rewrite !app_nil_r. simpl. done.
  - exists since. simpl in Ho. rewrite Ho, <- app_assoc. simpl.
    split; [done|]. split; [done|]. split; [done|].
    split; [|intros Hr; exact (HQ () Hr)].
    intros path Hex. apply Hp. by right.
Qed.


(** Looking for [admin/config] leaves the disk as it is. *)
Lemma getDoesAdminConfigExist_disk (d : Disk) :
  (getDoesAdminConfigExist resolveSync cwd d).2 = d.
Proof. unfold getDoesAdminConfigExist. by destruct (resolveSync _ _ _). Qed.

(** The user files have been written onto the disk left by the removal. *)
Lemma user_files_run dir (d0 d1 : Disk) saved :
  promiseAllMap (λ file, writeAdminFile prettierFormat file dir) (concat userPages) d0
  = (Returned saved, d1) →
  saved = map (target dir) (concat userPages)
  ∧ ∃ userOps, ops d1 = ops d0 ++ userOps
      ∧ Forall2 (λ file op, wrote (target dir file) op) (concat userPages) userOps.
Proof.
  intros Hr.
  destruct (writer_promiseAllMap (λ file, writeAdminFile prettierFormat file dir)
              (target dir) (target dir) (concat userPages)
              (λ file, writer_writeAdminFile prettierFormat file dir) d0)
    as (new & Ho & _ & _ & _ & HQ).
  rewrite Hr in Ho, HQ. destruct (HQ saved eq_refl) as [-> Hall].
  split; [done|]. by exists new.
Qed.


Lemma Forall2_wrote_Exists {A} (t : A → string) (l : list A) (new : list FsOp) x :
  Forall2 (λ x op, wrote (t x) op) l new → x ∈ l → Exists (wrote (t x)) new.
Proof.
  induction 1 as [|y op l new Hy Hall IH]; intros Hin; [by apply elem_of_nil in Hin|].
  apply elem_of_cons in Hin as [->|Hin]; [by left|]. right. by apply IH.
Qed.

(** X9. When [generateAdminUI] returns, every user file is on the disk at
    its output path under the target directory, and so is every framework
    file that passed the filter. *)
Theorem generateAdminUI_files_exist dir (d d' : Disk) :
  generate dir d = (Returned (), d') →
  (∀ file, file ∈ concat userPages → is_Some (files d' !! target dir file))
  ∧ ∃ configFileExists,
      ∀ file, file ∈ kept dir configFileExists →
              is_Some (files d' !! target dir file).
Proof.
  intros Hr. destruct (generateAdminUI_run dir d) as (since & _ & _ & _ & Hp & HQ).
  rewrite Hr in Hp, HQ. simpl in Hp, HQ.
  destruct (HQ eq_refl) as (b & found & userOps & frameworkOps & pageOps
                              & -> & Hu & Hf & _).
  split.
  - intros file Hin. apply Hp, Exists_app. left.
    by apply (Forall2_wrote_Exists (target dir) _ _ _ Hu).
  - exists b. intros file Hin. apply Hp, Exists_app. right. apply Exists_app. left.
    by apply (Forall2_wrote_Exists (target dir) _ _ _ Hf).
Qed.

End GeneratorRuns.

(** ** Absolute target directories *)

Lemma isAbsolute_append (a b : string) : a ≠ "" → isAbsolute (a +:+ b) = isAbsolute a.
Proof. by destruct a. Qed.

Lemma join_cons_nonempty (dir : string) (rest : list string) :
  dir ≠ "" →
  ∃ tail, join (dir :: rest) = normalize (dir +:+ tail).
Proof.
  intros Hd. unfold join. rewrite filter_cons_True by done.
  destruct (joinPath_cons dir (filter (λ part, part ≠ "") rest)) as [tail ->].
  by exists tail.
Qed.

(** Joining onto a nonempty directory keeps its being absolute or not. *)
Lemma isAbsolute_join (dir : string) (rest : list string) :
  dir ≠ "" → isAbsolute (join (dir :: rest)) = isAbsolute dir.
Proof.
  intros Hd. destruct (join_cons_nonempty dir rest Hd) as [tail ->].
  by rewrite isAbsolute_normalize, isAbsolute_append.
Qed.

(** Under an absolute target directory the filter keeps every framework
    file whose output path is relative. *)
Lemma keptFiles_absolute dir (userFiles frameworkFiles : list AdminFileToWrite) :
  isAbsolute dir = true →
  Forall (λ x, isAbsolute (outputPath x) = false) frameworkFiles →
  keptFiles dir userFiles frameworkFiles = frameworkFiles.
Proof.
  intros Hd Hrel. unfold keptFiles.
  induction Hrel as [|x l Hx Hl IH]; [done|].
  rewrite filter_cons_True, IH; [done|].
  rewrite elem_of_list_to_set. intros Hin%list_elem_of_In.
  apply in_map_iff in Hin as (file & Heq & _).
  assert (Habs : isAbsolute (target dir file) = true).
  { unfold target. rewrite isAbsolute_join; [done|]. by destruct dir. }
  rewrite Heq, isAbsolute_normalize in Habs. congruence.
Qed.

Section AbsoluteTarget.

Variable prettierFormat : string → outcome string.
Variable resolveSync : string → list string → gmap string string → Resolution.
Variable writeAdminFiles : bool → string → list AdminFileToWrite.
Variable userPages : list (list AdminFileToWrite).
Variable fastGlob : string → string → gmap string string → list string.
Variable dirname : string → string.
Variable relative : string → string → string.
Variable serializePathForImport : string → string.
Variable cwd : string.

Local Abbreviation generate :=
  (generateAdminUI prettierFormat resolveSync writeAdminFiles userPages fastGlob
     dirname relative serializePathForImport cwd).

(** X10. With an absolute target directory and framework files whose output
    paths are relative, the filter of [generateAdminUI] skips nothing: a
    call that returns has written every framework file, one write each and
    in order, after the user files, whatever the user has supplied. *)
Theorem framework_files_never_skipped dir (d d' : Disk) :
  isAbsolute dir = true →
  (∀ configFileExists,
     Forall (λ x, isAbsolute (outputPath x) = false)
       (writeAdminFiles configFileExists dir)) →
  generate dir d = (Returned (), d') →
  ∃ configFileExists userOps frameworkOps pageOps,
    ops d' = ops d ++ Removed dir :: userOps ++ frameworkOps ++ pageOps
    ∧ Forall2 (λ file op, wrote (target dir file) op) (concat userPages) userOps
    ∧ Forall2 (λ file op, wrote (target dir file) op)
        (writeAdminFiles configFileExists dir) frameworkOps.
Proof.
  intros Hd Hrel Hr.
  destruct (generateAdminUI_run prettierFormat resolveSync writeAdminFiles userPages
              fastGlob dirname relative serializePathForImport cwd dir d)
    as (since & Ho & _ & _ & _ & HQ).
  rewrite Hr in Ho, HQ. simpl in Ho, HQ.
  destruct (HQ eq_refl) as (b & found & userOps & frameworkOps & pageOps
                              & -> & Hu & Hf & _).
  rewrite keptFiles_absolute in Hf by done.
  by exists b, userOps, frameworkOps, pageOps.
Qed.

End AbsoluteTarget.

(** ** One file *)

(** Segments without [..] are pushed, the empty ones and [.] apart. *)
Lemma normalizeSegments_no_dots allow stack (l : list string) :
  Forall (λ s, s ≠ "..") l →
  normalizeSegments allow stack l
  = rev stack ++ filter (λ s, ¬ (s = "" ∨ s = ".")) l.
Proof.
  intros Hl. revert stack. induction Hl as [|s l Hs Hl IH]; intros stack; simpl.
  - by rewrite app_nil_r.
  - case_bool_decide as H1.
    + rewrite filter_cons_False by (by intros ?). apply IH.
    + rewrite bool_decide_eq_false_2 by done.
      rewrite filter_cons_True by done. rewrite IH. simpl.
      by rewrite <- app_assoc.
Qed.

Lemma isPrefix_app (l r : list string) : isPrefix l (l ++ r) = true.
Proof.
  induction l as [|x l IH]; [done|]. simpl.
  by rewrite bool_decide_eq_true_2, IH.
Qed.

(** A path joined onto a directory, without [..] in it, lies in that
    directory. *)
Lemma inside_join dir out :
  dir ≠ "" → Forall (λ s, s ≠ "..") (splitPath out) →
  inside dir (join [dir; out]) = true.
Proof.
  intros Hd Hout. unfold inside.
  rewrite isAbsolute_join, bool_decide_eq_true_2 by done. simpl.
  unfold join. rewrite filter_cons_True by done.
  destruct (decide (out = "")) as [->|Hne].
  - rewrite filter_cons_False by (by intros ?). rewrite filter_nil. simpl.
    rewrite segments_normalize. rewrite <- (app_nil_r (segments dir)) at 2.
    apply isPrefix_app.
  - rewrite filter_cons_True by done. rewrite filter_nil.
    change (joinPath [dir; out]) with (dir +:+ String slash out).
    rewrite segments_normalize. unfold segments at 2.
    rewrite isAbsolute_append, splitPath_app, normalizeSegments_app by done.
    fold (segments dir). rewrite normalizeSegments_no_dots by done.
    rewrite rev_involutive. apply isPrefix_app.
Qed.

Section OneFile.

Variable prettierFormat : string → outcome string.

Local Abbreviation writeFile := (writeAdminFile prettierFormat).

(** X11. [writeAdminFile] refuses two kinds of file before it calls the
    file system: a file to write whose source the formatter rejects, and a
    file to copy whose input path is not absolute.  The call throws, in the
    first case what the formatter throws, and the disk is as it was: no file
    is changed and no operation has been performed. *)
Theorem writeAdminFile_failure dir (d : Disk) :
  (∀ src out e, prettierFormat src = Thrown e →
                writeFile (WriteFile src out) dir d = (Thrown e, d))
  ∧ (∀ inputPath out, isAbsolute inputPath = false →
                      ∃ e, writeFile (CopyFile inputPath out) dir d = (Thrown e, d)).
Proof.
  split.
  - intros src out e He. simpl. unfold async_bind, formatSource. by rewrite He.
  - intros inputPath out Hrel. simpl. rewrite Hrel. simpl. by eexists.
Qed.

(** X12. A call of [writeAdminFile] that returns has put exactly one file on
    the disk, at the path joined from the target directory and the output
    path, which is also the path it returns: the formatted source for a
    file to write, the content of the input file for a file to copy.
    Every other file is as it was. *)
Theorem writeAdminFile_success file dir (d d' : Disk) path :
  writeFile file dir d = (Returned path, d') →
  path = join [dir; outputPath file]
  ∧ ∃ content,
      match file with
      | WriteFile src _ => prettierFormat src = Returned content
      | CopyFile inputPath _ =>
          isAbsolute inputPath = true ∧ files d !! inputPath = Some content
      end
      ∧ files d' = <[path := content]> (files d)
      ∧ ops d' = ops d ++ [match file with
                           | WriteFile _ _ => Written path content
                           | CopyFile inputPath _ => Copied inputPath path
                           end].
Proof.
  destruct file as [src out|inp out]; simpl;
    unfold async_bind, formatSource, copyFile, outputFile, throw, async_ret.
  - destruct (prettierFormat src) as [formatted|e]; [|done].
    rewrite join_normalized. intros [= <- <-]. split; [done|]. by exists formatted.
  - destruct (isAbsolute inp); [|done]. simpl.
    destruct (files d !! inp) as [content|]; [|done].
    rewrite join_normalized. intros [= <- <-]. split; [done|]. by exists content.
Qed.

(** X13. A file whose output path has no [..] segment is written inside the
    target directory: the path [writeAdminFile] returns lies in it. *)
Theorem writeAdminFile_stays_inside file dir (d d' : Disk) path :
  dir ≠ "" →
  Forall (λ s, s ≠ "..") (splitPath (outputPath file)) →
  writeFile file dir d = (Returned path, d') →
  inside dir path = true.
Proof.
  intros Hd Hout Hr.
  destruct (writer_writeAdminFile prettierFormat file dir d)
    as (new & _ & _ & _ & _ & HQ).
  rewrite Hr in HQ. destruct (HQ path eq_refl) as [-> _].
  by apply inside_join.
Qed.

End OneFile.

(** ** The further properties on the sample inputs *)

Lemma send_link_failure_is_silent_witness :
  (sendItemPasswordResetLink (createAuthToken "tok") sampleMessage (λ _, true)
     (λ _ _ _, true) (demoConfig false) "nobody@x.com" 100 demoWorld).2 = demoWorld.
Proof.
  apply (send_link_failure_is_silent sampleMessage (λ _, true) (λ _ _ _, true)
           (createAuthToken "tok") (demoConfig false) "nobody@x.com" 100 demoWorld).
  intros itemId token. vm_compute. discriminate.
Defined.

Lemma send_link_stores_before_sending_witness :
  calls (sendItemPasswordResetLink (createAuthToken "tok") sampleMessage (λ _, true)
           (λ _ _ _, false) (demoConfig false) "a@x.com" 100 demoWorld).2
  = calls demoWorld
    ++ [UpdateOne "1" {[ tokenKey := VString "tok"; issuedAtKey := VDate 100;
                         redeemedAtKey := VNull ]};
        SendToken "1" "a@x.com" "tok"]
  ∧ ∃ e, (sendItemPasswordResetLink (createAuthToken "tok") sampleMessage (λ _, true)
            (λ _ _ _, false) (demoConfig false) "a@x.com" 100 demoWorld).1 = Thrown e.
Proof.
  destruct (send_link_stores_before_sending sampleMessage (λ _, true) (λ _ _ _, false)
              (createAuthToken "tok") (demoConfig false) "a@x.com" 100 demoWorld
              "1" "tok") as [H _].
  - vm_compute. reflexivity.
  - destruct (H alice) as (Hc & _ & _ & Hthrown).
    + reflexivity.
    + vm_compute. reflexivity.
    + split; [exact Hc|]. apply Hthrown. reflexivity.
Defined.

Lemma redeem_stops_at_failed_mark_witness :
  ∃ e, redeemItemPasswordResetToken (validateAuthToken plainTokenMatches) sampleMessage
         (λ data, bool_decide (data !! redeemedAtKey = None)) (demoConfig false)
         "a@x.com" "tok" "hunter2" 105 issuedWorld
       = (Thrown e,
          {| items := items issuedWorld;
             calls := calls issuedWorld
                      ++ [UpdateOne "1" {[ redeemedAtKey := VDate 105 ]}] |}).
Proof.
  apply (redeem_stops_at_failed_mark sampleMessage
           (λ data, bool_decide (data !! redeemedAtKey = None))
           (validateAuthToken plainTokenMatches) (demoConfig false)
           "a@x.com" "tok" "hunter2" 105 issuedWorld "1" aliceIssued).
  - vm_compute. reflexivity.
  - left. vm_compute. reflexivity.
Defined.

Lemma redeem_changes_two_fields_witness :
  ∃ w' itemId before after,
    redeemItemPasswordResetToken (validateAuthToken plainTokenMatches) sampleMessage
      (λ _, true) (demoConfig false) "a@x.com" "tok" "hunter2" 105 issuedWorld
    = (Returned None, w')
    ∧ items issuedWorld !! itemId = Some before
    ∧ items w' !! itemId = Some after
    ∧ after !! "password" = Some (VString "hunter2")
    ∧ after !! tokenKey = before !! tokenKey.
Proof.
  set (r := redeemItemPasswordResetToken (validateAuthToken plainTokenMatches)
              sampleMessage (λ _, true) (demoConfig false)
              "a@x.com" "tok" "hunter2" 105 issuedWorld).
  assert (Hr : r = (Returned None, r.2)) by (vm_compute; reflexivity).
  destruct (redeem_changes_two_fields sampleMessage (λ _, true)
              (validateAuthToken plainTokenMatches) (demoConfig false)
              "a@x.com" "tok" "hunter2" 105 issuedWorld r.2 Hr)
    as (itemId & item & before & after & _ & Hb & Ha & Hs & _ & Hk).
  exists r.2, itemId, before, after.
  split; [exact Hr|]. split; [exact Hb|]. split; [exact Ha|]. split; [exact Hs|].
  apply Hk; discriminate.
Defined.

(** A project with a page of its own, [admin/pages/about.js], a framework
    that supplies [pages/_app.js], and a search that finds the page when it
    is in the directory searched. *)
Definition frameworkApp : AdminFileToWrite := WriteFile "APP" "pages/_app.js".

Definition pagesDisk : Disk :=
  {| files := {[ "/app/admin/pages/about.js" := "ABOUT";
                 "/app/.keystone/admin/pages/old.js" := "OLD" ]};
     ops := [] |}.

Definition findAbout (pattern dir : string) (files : gmap string string)
  : list string :=
  if bool_decide (is_Some (files !! join [dir; "about.js"])) then ["about.js"] else [].

Definition pagesGenerate (projectAdminPath : string) : Async Disk unit :=
  generateAdminUI (λ src, Returned src) (λ _ _ _, ModuleNotFound)
    (λ _ _, [frameworkApp]) [[userIndex]] findAbout
    (λ path, path) (λ _ to, to) (λ path, path) "/app" projectAdminPath.



Lemma writeAdminFile_failure_witness :
  writeAdminFile (λ _, Thrown (JsError "SyntaxError"))
    (WriteFile "const = ;" "pages/index.js") "/app/.keystone/admin" staleDisk
  = (Thrown (JsError "SyntaxError"), staleDisk)
  ∧ ∃ e, writeAdminFile (λ src, Returned src) (CopyFile "public/logo.png" "logo.png")
           "/app/.keystone/admin" staleDisk
         = (Thrown e, staleDisk).
Proof.
  split.
  - apply (proj1 (writeAdminFile_failure (λ _, Thrown (JsError "SyntaxError"))
                    "/app/.keystone/admin" staleDisk)).
    reflexivity.
  - apply (proj2 (writeAdminFile_failure (λ src, Returned src)
                    "/app/.keystone/admin" staleDisk)).
    reflexivity.
Defined.

Lemma generateAdminUI_files_exist_witness :
  is_Some (files (sampleGenerate "/app/.keystone/admin" staleDisk).2
             !! target "/app/.keystone/admin" userIndex).
Proof.
  set (r := sampleGenerate "/app/.keystone/admin" staleDisk).
  assert (Hr : r = (Returned (), r.2)) by (vm_compute; reflexivity).
  destruct (generateAdminUI_files_exist (λ src, Returned src)
              (λ _ _ _, ModuleNotFound) (λ _ _, [frameworkIndex]) [[userIndex]]
              (λ _ _ _, []) (λ path, path) (λ _ to, to) (λ path, path) "/app"
              "/app/.keystone/admin" staleDisk r.2 Hr) as [Hu _].
  apply Hu. simpl. by left.
Defined.

Lemma framework_files_never_skipped_witness :
  ∃ d' userOps frameworkOps pageOps,
    sampleGenerate "/app/.keystone/admin" staleDisk = (Returned (), d')
    ∧ ops d' = ops staleDisk
               ++ Removed "/app/.keystone/admin" :: userOps ++ frameworkOps ++ pageOps
    ∧ Forall2 (λ file op, wrote (target "/app/.keystone/admin" file) op)
        [userIndex] userOps
    ∧ Forall2 (λ file op, wrote (target "/app/.keystone/admin" file) op)
        [frameworkIndex] frameworkOps.
Proof.
  set (r := sampleGenerate "/app/.keystone/admin" staleDisk).
  assert (Hr : r = (Returned (), r.2)) by (vm_compute; reflexivity).
  destruct (framework_files_never_skipped (λ src, Returned src)
              (λ _ _ _, ModuleNotFound) (λ _ _, [frameworkIndex]) [[userIndex]]
              (λ _ _ _, []) (λ path, path) (λ _ to, to) (λ path, path) "/app"
              "/app/.keystone/admin" staleDisk r.2)
    as (b & userOps & frameworkOps & pageOps & Ho & Hu & Hf).
  - reflexivity.
  - intros _. repeat constructor.
  - exact Hr.
  - exists r.2, userOps, frameworkOps, pageOps.
    split; [exact Hr|]. split; [exact Ho|]. split; [exact Hu|exact Hf].
Defined.

Lemma writeAdminFile_success_witness :
  ∃ d' content,
    writeAdminFile (λ src, Returned src) (CopyFile "/app/keystone.ts" "copy.ts")
      "/app/.keystone/admin" staleDisk
    = (Returned "/app/.keystone/admin/copy.ts", d')
    ∧ files staleDisk !! "/app/keystone.ts" = Some content
    ∧ files d' = <["/app/.keystone/admin/copy.ts" := content]> (files staleDisk).
Proof.
  set (r := writeAdminFile (λ src, Returned src) (CopyFile "/app/keystone.ts" "copy.ts")
              "/app/.keystone/admin" staleDisk).
  assert (Hr : r = (Returned "/app/.keystone/admin/copy.ts", r.2))
    by (vm_compute; reflexivity).
  destruct (writeAdminFile_success (λ src, Returned src)
              (CopyFile "/app/keystone.ts" "copy.ts") "/app/.keystone/admin"
              staleDisk r.2 "/app/.keystone/admin/copy.ts" Hr)
    as (_ & content & [_ Hc] & Hf & _).
  exists r.2, content. split; [exact Hr|]. split; [exact Hc|exact Hf].
Defined.

Lemma writeAdminFile_stays_inside_witness :
  inside "/app/.keystone/admin" "/app/.keystone/admin/pages/index.js" = true.
Proof.
  set (r := writeAdminFile (λ src, Returned src) userIndex
              "/app/.keystone/admin" staleDisk).
  assert (Hr : r = (Returned "/app/.keystone/admin/pages/index.js", r.2))
    by (vm_compute; reflexivity).
  apply (writeAdminFile_stays_inside (λ src, Returned src) userIndex
           "/app/.keystone/admin" staleDisk r.2
           "/app/.keystone/admin/pages/index.js").
  - discriminate.
  - vm_compute. repeat constructor; discriminate.
  - exact Hr.
Defined.
